(** * notion_html_to_anki_csv: a shallow embedding and its properties

    The script turns the table of a Notion HTML export into an Anki CSV
    file.  The embedding follows [notion_html_to_anki_csv.py] function by
    function:

    - a Python [str] is a list of characters, each its code point; [lit]
      writes a literal;
    - the document is the tree that the HTML tree builder hands to the
      script, made of strings and elements (no comments, declarations or
      CDATA sections); a string has the class the tree builder gave it,
      and an element carries the identity of its Python object, since the
      script collects elements with [find_all] and then changes them in
      place;
    - [Tag.attrs] is an insertion-ordered dict, here an association list
      with the dict operations;
    - the column map is a finite map from field names to indices;
    - a run either raises ([error]) or returns, and on the way changes the
      file at the output path ([file]);
    - what the script takes from its libraries is modelled as the
      libraries document it: reading the text of a tag ([get_text]),
      printing a tree ([decode_contents], minimal formatter, attributes
      sorted by name), [re.split] and [re.sub] on the three patterns
      used, [str.replace], the CSV writer with minimal quoting, writing
      to a file opened with the UTF-8 encoding.  The HTML parser itself
      is a parameter, and so are the case tables of Unicode from U+0100
      on.

    Definitions come first, the properties after them. *)

From Stdlib Require Import List Ascii String Bool Arith NArith Lia.
From stdpp Require Import base decidable list strings gmap.
Import ListNotations.

Open Scope list_scope.
Open Scope nat_scope.

(** ** Strings *)

(** A character is its code point. *)
Abbreviation char := N.

Abbreviation str := (list char).

(** A literal, written as a Rocq string. *)
Definition lit (s : string) : str := map N_of_ascii (list_ascii_of_string s).

Definition str_eqb (a b : str) : bool := bool_decide (a = b).

Arguments lit : simpl never.

(** [str.isspace] on one character, which is also what [\s] matches. *)
Definition is_space (c : char) : bool :=
  (((9 <=? c) && (c <=? 13)) || ((28 <=? c) && (c <=? 32))
   || (c =? 133) || (c =? 160) || (c =? 5760)
   || ((8192 <=? c) && (c <=? 8202)) || (c =? 8232) || (c =? 8233)
   || (c =? 8239) || (c =? 8287) || (c =? 12288))%N.

Fixpoint lstrip_by (p : char -> bool) (s : str) : str :=
  match s with
  | c :: s' => if p c then lstrip_by p s' else s
  | [] => []
  end.

Definition rstrip_by (p : char -> bool) (s : str) : str :=
  rev (lstrip_by p (rev s)).

Definition strip_by (p : char -> bool) (s : str) : str :=
  rstrip_by p (lstrip_by p s).

(** [s.strip()], [s.rstrip(chars)] and [s.strip(chars)]. *)
Definition strip (s : str) : str := strip_by is_space s.

Definition in_chars (chars : str) (c : char) : bool :=
  existsb (N.eqb c) chars.

Definition rstrip_chars (chars s : str) : str := rstrip_by (in_chars chars) s.
Definition strip_chars (chars s : str) : str := strip_by (in_chars chars) s.

(** [s.startswith(p)], returning what follows the prefix. *)
Fixpoint strip_prefix (p s : str) : option str :=
  match p, s with
  | [], _ => Some s
  | a :: p', b :: s' => if N.eqb a b then strip_prefix p' s' else None
  | _ :: _, [] => None
  end.

Definition startswith (p s : str) : bool :=
  match strip_prefix p s with Some _ => true | None => false end.

Definition endswith (p s : str) : bool := startswith (rev p) (rev s).

(** [sep.join(parts)]. *)
Fixpoint join (sep : str) (parts : list str) : str :=
  match parts with
  | [] => []
  | [p] => p
  | p :: rest => p ++ sep ++ join sep rest
  end.

(** ** Attributes

    [Tag.attrs] is a dict, kept in insertion order.  The tree builder
    stores [class] (and the other token-list attributes of HTML) as a
    list of tokens and every other attribute as a string. *)

Inductive attr_value :=
| AStr (s : str)
| AList (l : list str).

Abbreviation attrs := (list (str * attr_value)).

Fixpoint attr_get (k : str) (a : attrs) : option attr_value :=
  match a with
  | [] => None
  | (k', v) :: a' => if str_eqb k k' then Some v else attr_get k a'
  end.

(** [d[k] = v]: an existing key keeps its place, a new one goes last. *)
Fixpoint attr_set (k : str) (v : attr_value) (a : attrs) : attrs :=
  match a with
  | [] => [(k, v)]
  | (k', v') :: a' =>
      if str_eqb k k' then (k', v) :: a' else (k', v') :: attr_set k v a'
  end.

(** [d.pop(k, None)]. *)
Fixpoint attr_pop (k : str) (a : attrs) : attrs :=
  match a with
  | [] => []
  | (k', v') :: a' =>
      if str_eqb k k' then attr_pop k a' else (k', v') :: attr_pop k a'
  end.

(** The text of a value; a token list reads as its tokens joined by one
    space, which is how the tree prints it. *)
Definition attr_text (v : attr_value) : str :=
  match v with
  | AStr s => s
  | AList l => join (lit " ") l
  end.

(** ** The color-class normalizer *)

Definition CSS_COLOR_MAP : list (str * str) :=
  [ (lit "default", lit "black");
    (lit "gray", lit "gray");
    (lit "brown", lit "saddlebrown");
    (lit "orange", lit "orange");
    (lit "yellow", lit "gold");
    (lit "teal", lit "teal");
    (lit "blue", lit "blue");
    (lit "purple", lit "purple");
    (lit "pink", lit "deeppink");
    (lit "red", lit "red") ].

Fixpoint dict_get {V} (k : str) (d : list (str * V)) : option V :=
  match d with
  | [] => None
  | (k', v) :: d' => if str_eqb k k' then Some v else dict_get k d'
  end.

(** [el.get("style", "")]. *)
Definition style_of (a : attrs) : str :=
  match attr_get (lit "style") a with
  | Some v => attr_text v
  | None => []
  end.

Definition merge_style (a : attrs) (new_rules : str) : attrs :=
  let existing := rstrip_chars (lit ";") (strip (style_of a)) in
  attr_set (lit "style")
    (AStr (match existing with
           | [] => new_rules
           | _ => existing ++ lit ";" ++ new_rules
           end)) a.

(** [[a-z_]]. *)
Definition is_key_char (c : char) : bool :=
  (((97 <=? c) && (c <=? 122)) || (c =? 95))%N.

Fixpoint span_by (p : char -> bool) (s : str) : str * str :=
  match s with
  | c :: s' =>
      if p c then let '(a, b) := span_by p s' in (c :: a, b) else ([], s)
  | [] => ([], [])
  end.

Definition newline : char := 10%N.

(** [([a-z_]+)$] at the start of [s]: the longest run of key characters,
    which must reach the end of [s] or the newline that ends [s]. *)
Definition key_to_end (s : str) : option str :=
  let '(key, rest) := span_by is_key_char s in
  match key with
  | [] => None
  | _ => if str_eqb rest [] || str_eqb rest [newline] then Some key else None
  end.

(** [re.match(r"(?:highlight|block-color)-([a-z_]+)$", cls)], giving
    group 1. *)
Definition color_class_key (cls : str) : option str :=
  match strip_prefix (lit "highlight-") cls with
  | Some rest => key_to_end rest
  | None =>
      match strip_prefix (lit "block-color-") cls with
      | Some rest => key_to_end rest
      | None => None
      end
  end.

(** [list.remove(x)]: the first occurrence goes. *)
Fixpoint list_remove (x : str) (l : list str) : list str :=
  match l with
  | [] => []
  | y :: l' => if str_eqb x y then l' else y :: list_remove x l'
  end.

(** One turn of the loop over the copied class list; the state is the
    live class list and the element's attributes. *)
Definition color_class_step (st : list str * attrs) (cls : str)
  : list str * attrs :=
  let '(classes, a) := st in
  match color_class_key cls with
  | None => st
  | Some key =>
      let a' :=
        if negb (endswith (lit "_background") key) then
          match dict_get key CSS_COLOR_MAP with
          | Some col => merge_style a (lit "color:" ++ col)
          | None => a
          end
        else a in
      (list_remove cls classes, a')
  end.

Definition convert_color_classes_to_inline (a : attrs) : attrs :=
  match attr_get (lit "class") a with
  | Some (AList (c :: cs)) =>
      let classes := c :: cs in
      let '(classes', a') := fold_left color_class_step classes (classes, a) in
      match classes' with
      | [] => attr_pop (lit "class") a'
      | _ => attr_set (lit "class") (AList classes') a'
      end
  | _ => a
  end.

(** The normalizer, said without the loop: which class tokens it
    recognises, and which color each one stands for. *)
Definition is_color_class (cls : str) : bool :=
  match color_class_key cls with Some _ => true | None => false end.

Definition class_color (cls : str) : option str :=
  match color_class_key cls with
  | Some key =>
      if endswith (lit "_background") key then None
      else dict_get key CSS_COLOR_MAP
  | None => None
  end.

Definition add_color (a : attrs) (col : str) : attrs :=
  merge_style a (lit "color:" ++ col).

Definition put_classes (kept : list str) (a : attrs) : attrs :=
  match kept with
  | [] => attr_pop (lit "class") a
  | _ => attr_set (lit "class") (AList kept) a
  end.


(** ** The document tree

    A node is a string or an element.  An element carries the identity of
    its Python object, [uid]: the loops of the script first collect
    elements and then change them in place, and a collected element is
    found again in the tree by its identity.

    A string is a [NavigableString], [Text], unless the tree builder met
    it below [<rt>], [<rp>], [<style>], [<script>] or [<template>]: such
    a string has a class of its own, which it keeps wherever the script
    moves it. *)

Inductive string_class :=
| RubyTextString
| RubyParenthesisString
| Stylesheet
| Script
| TemplateString.

#[warnings="-register-all"]
Inductive node :=
| Text (s : str)
| Elem (uid : nat) (name : str) (a : attrs) (kids : list node)
| Special (cls : string_class) (s : str).

Abbreviation forest := (list node).

(** The strings below a list of nodes, in document order. *)
Fixpoint node_strings (n : node) : list str :=
  match n with
  | Text s | Special _ s => [s]
  | Elem _ _ _ kids => flat_map node_strings kids
  end.

Definition strings_of (f : forest) : list str := flat_map node_strings f.

(** The strings that [get_text] reads: called on a cell, it reads the
    strings of class [NavigableString] and leaves out those of the other
    classes. *)
Fixpoint node_text_strings (n : node) : list str :=
  match n with
  | Text s => [s]
  | Elem _ _ _ kids => flat_map node_text_strings kids
  | Special _ _ => []
  end.

Definition text_strings_of (f : forest) : list str :=
  flat_map node_text_strings f.

Definition nonempty (s : str) : bool :=
  match s with [] => false | _ => true end.

(** [tag.get_text(sep, strip=True)] over the children [f] of the cell
    [tag]: every string it reads is stripped, the empty ones are left
    out. *)
Definition get_text_strip (sep : str) (f : forest) : str :=
  join sep (List.filter nonempty (map strip (text_strings_of f))).

(** ** The tag extractor *)

(** [re.split] on a pattern that is one or more characters of a class:
    the pieces between the maximal runs, empty pieces included. *)
Fixpoint split_runs (p : char -> bool) (s : str) : list str :=
  match s with
  | [] => [[]]
  | c :: s' =>
      if p c then
        match s' with
        | d :: _ => if p d then split_runs p s' else [] :: split_runs p s'
        | [] => [] :: split_runs p s'
        end
      else
        match split_runs p s' with
        | piece :: pieces => (c :: piece) :: pieces
        | [] => [[c]]
        end
  end.

(** [re.sub] of every maximal run of a character class by [r]. *)
Fixpoint sub_runs (p : char -> bool) (r : str) (s : str) : str :=
  match s with
  | [] => []
  | c :: s' =>
      if p c then
        match s' with
        | d :: _ => if p d then sub_runs p r s' else r ++ sub_runs p r s'
        | [] => r ++ sub_runs p r s'
        end
      else c :: sub_runs p r s'
  end.

(** [[,;\n]]. *)
Definition is_tag_sep (c : char) : bool :=
  in_chars (lit ",;") c || N.eqb c newline.

(** One turn of the loop over the tokens: the state is [clean] and
    [seen]. *)
Definition tags_step (st : list str * gset str) (tok : str)
  : list str * gset str :=
  let '(clean, seen) := st in
  let tok := strip_chars (lit ",;") (sub_runs is_space (lit "-") (strip tok)) in
  if nonempty tok && negb (bool_decide (tok ∈ seen))
  then (clean ++ [tok], {[tok]} ∪ seen)
  else st.

Definition tags_from_text (raw : str) : str :=
  let tokens :=
    map strip
      (List.filter (fun t => nonempty (strip t)) (split_runs is_tag_sep raw)) in
  let '(clean, _) := fold_left tags_step tokens ([], ∅) in
  join (lit " ") clean.

(** [tags_from_cell(cell)], on the children of the cell. *)
Definition tags_from_cell (cell : forest) : str :=
  tags_from_text (get_text_strip (lit " ") cell).

(** The extractor in the words of its description: split, trim, dash,
    keep the first of equal tokens, join. *)
Fixpoint dedup_first (l : list str) : list str :=
  match l with
  | [] => []
  | x :: l' => x :: List.filter (fun y => negb (str_eqb y x)) (dedup_first l')
  end.

Definition tags_described (raw : str) : str :=
  join (lit " ")
    (dedup_first
       (List.filter nonempty
          (map (fun t => sub_runs is_space (lit "-") (strip t))
             (split_runs is_tag_sep raw)))).

(** ** Searching the tree *)

(** The elements below a list of nodes, in document order:
    [tag.find_all(True)] over the children of [tag]. *)
Fixpoint node_elems (n : node) : list node :=
  match n with
  | Text _ | Special _ _ => []
  | Elem _ _ _ kids => n :: flat_map node_elems kids
  end.

Definition elems_of (f : forest) : list node := flat_map node_elems f.

Definition node_name (n : node) : str :=
  match n with Text _ | Special _ _ => [] | Elem _ nm _ _ => nm end.

Definition node_kids (n : node) : forest :=
  match n with Text _ | Special _ _ => [] | Elem _ _ _ kids => kids end.

Definition node_attrs (n : node) : attrs :=
  match n with Text _ | Special _ _ => [] | Elem _ _ a _ => a end.

Definition node_uid (n : node) : nat :=
  match n with Text _ | Special _ _ => 0 | Elem u _ _ _ => u end.

(** [tag.find_all(name)] and [tag.find(name)]. *)
Definition find_all (name : str) (f : forest) : list node :=
  List.filter (fun n => str_eqb (node_name n) name) (elems_of f).

Definition find (name : str) (f : forest) : option node :=
  head (find_all name f).

(** What can go wrong in a run. *)
Inductive error :=
| AttributeError       (* a method of [None] *)
| KeyError             (* a key the column map lacks *)
| IndexError           (* a row with too few cells *)
| UnicodeEncodeError.  (* a character that UTF-8 cannot encode *)

(** ** The header row and the column map *)

(** [sub in s]. *)
Fixpoint contains (sub s : str) : bool :=
  startswith sub s ||
  match s with
  | [] => false
  | _ :: s' => contains sub s'
  end.

Fixpoint enumerate_from {A} (i : nat) (l : list A) : list (nat * A) :=
  match l with
  | [] => []
  | x :: l' => (i, x) :: enumerate_from (S i) l'
  end.

Definition enumerate {A} (l : list A) : list (nat * A) := enumerate_from 0 l.

(** One turn of the loop over the header texts. *)
Definition col_map_step (col_map : gmap string nat) (h : nat * str)
  : gmap string nat :=
  let '(idx, name) := h in
  if contains (lit "notion-id") name then <["id" := idx]> col_map
  else if str_eqb (lit "front") name then <["front" := idx]> col_map
  else if str_eqb (lit "back") name then <["back" := idx]> col_map
  else if contains (lit "tags") name then <["tags" := idx]> col_map
  else col_map.

Definition col_map_of (headers : list str) : gmap string nat :=
  fold_left col_map_step (enumerate headers) ∅.

(** [str.lower()] on one character below U+0100. *)
Definition lower_char (c : char) : char :=
  (if ((65 <=? c) && (c <=? 90))
      || ((192 <=? c) && (c <=? 222) && negb (c =? 215))
   then c + 32 else c)%N.

Section header.
(** The case tables of Unicode from U+0100 on: what [s.lower()] puts in
    the place of the character at a position of [s]. *)
Variable unicode_lower : str -> nat -> str.

(** [s.lower()]. *)
Definition lower (s : str) : str :=
  concat (imap (fun i c => if (c <? 256)%N then [lower_char c]
                           else unicode_lower s i) s).

Definition header_texts (thead : forest) : list str :=
  map (fun th => lower (get_text_strip [] (node_kids th)))
      (find_all (lit "th") thead).

(** [parse_table(soup)]: the table element and the column map. *)
Definition parse_table (soup : forest) : error + (node * gmap string nat) :=
  match find (lit "table") soup with
  | None => inl AttributeError
  | Some table =>
      match find (lit "thead") (node_kids table) with
      | None => inl AttributeError
      | Some thead =>
          inr (table, col_map_of (header_texts (node_kids thead)))
      end
  end.
End header.

(** The rule a header text falls under, in the order of the tests. *)
Definition header_rule (name : str) : option string :=
  if contains (lit "notion-id") name then Some "id"%string
  else if str_eqb name (lit "front") then Some "front"%string
  else if str_eqb name (lit "back") then Some "back"%string
  else if contains (lit "tags") name then Some "tags"%string
  else None.

(** ** Changing collected elements in place

    [rewrite_at u h f] puts [h n] in the place of the element [n] of
    identity [u] in [f]: [h n = [n']] changes the element, [h n] being the
    children of [n] unwraps it.  An identity that is not in the tree
    changes nothing. *)
Fixpoint rewrite_node (u : nat) (h : node -> forest) (n : node) : forest :=
  match n with
  | Text _ | Special _ _ => [n]
  | Elem v nm a kids =>
      if v =? u then h n
      else [Elem v nm a (flat_map (rewrite_node u h) kids)]
  end.

Definition rewrite_at (u : nat) (h : node -> forest) (f : forest) : forest :=
  flat_map (rewrite_node u h) f.

(** [for el in collected: ...]: the elements were collected before the
    loop; each turn acts on the element as it is in the tree by then. *)
Definition for_uids (us : list nat) (h : node -> forest) (f : forest)
  : forest :=
  fold_left (fun st u => rewrite_at u h st) us f.

Definition for_each (collected : list node) (h : node -> forest) (f : forest)
  : forest :=
  for_uids (map node_uid collected) h f.

(** A turn that changes the name and the attributes of the element. *)
Definition apply_head (g : str -> attrs -> str * attrs) (n : node) : forest :=
  match n with
  | Text _ | Special _ _ => [n]
  | Elem u nm a kids => let '(nm', a') := g nm a in [Elem u nm' a' kids]
  end.

Definition with_attrs (g : attrs -> attrs) : node -> forest :=
  apply_head (fun nm a => (nm, g a)).

(** ** The inline sanitizer, on the tree *)

Definition ALLOWED_TAGS : list str :=
  map lit [ "strong"; "b"; "em"; "i"; "u";
            "code"; "pre"; "span"; "br";
            "ul"; "ol"; "li"; "a"; "div" ]%string.

Definition allowed (name : str) : bool := existsb (str_eqb name) ALLOWED_TAGS.

(** [mark.name = "span"; convert_color_classes_to_inline(mark)]. *)
Definition mark_to_span : node -> forest :=
  apply_head (fun _ a => (lit "span", convert_color_classes_to_inline a)).

(** Python's truth of an attribute value. *)
Definition truthy (v : attr_value) : bool :=
  match v with
  | AStr s => nonempty s
  | AList l => match l with [] => false | _ => true end
  end.

(** [href = a.get("href"); a.attrs = {"href": href} if href else {}]. *)
Definition keep_href (a : attrs) : attrs :=
  match attr_get (lit "href") a with
  | Some href => if truthy href then [(lit "href", href)] else []
  | None => []
  end.

(** [tag.unwrap()] when the tag is not allowed. *)
Definition unwrap_disallowed (n : node) : forest :=
  if allowed (node_name n) then [n] else node_kids n.

(** [s.split(c)] for one character [c]. *)
Fixpoint split_char (c : char) (s : str) : list str :=
  match s with
  | [] => [[]]
  | d :: s' =>
      if N.eqb d c then [] :: split_char c s'
      else match split_char c s' with
           | piece :: pieces => (d :: piece) :: pieces
           | [] => [[d]]
           end
  end.

Definition semicolon : char := 59%N.

Definition is_background (decl : str) : bool :=
  startswith (lit "background-color") (strip decl).

(** The two comprehensions over [el["style"].split(";")]. *)
Definition strip_background (style : str) : str :=
  let styles :=
    List.filter (fun s => negb (is_background s)) (split_char semicolon style) in
  join (lit ";") (List.filter (fun s => nonempty (strip s)) styles).

Definition strip_background_attrs (a : attrs) : attrs :=
  match attr_get (lit "style") a with
  | Some v => attr_set (lit "style") (AStr (strip_background (attr_text v))) a
  | None => a
  end.

Definition stage_marks (f : forest) : forest :=
  for_each (find_all (lit "mark") f) mark_to_span f.

Definition stage_spans (f : forest) : forest :=
  for_each (find_all (lit "span") f)
           (with_attrs convert_color_classes_to_inline) f.

Definition stage_links (f : forest) : forest :=
  for_each (find_all (lit "a") f) (with_attrs keep_href) f.

Definition stage_unwrap (f : forest) : forest :=
  for_each (elems_of f) unwrap_disallowed f.

Definition stage_background (f : forest) : forest :=
  for_each (elems_of f) (with_attrs strip_background_attrs) f.

(** The children of the cell after the five loops of
    [sanitize_inline_html]. *)
Definition sanitize_tree (cell : forest) : forest :=
  stage_background (stage_unwrap (stage_links (stage_spans (stage_marks cell)))).

(** The loops, said by recursion on the tree: [map_where] changes the head
    of every element whose name is selected, [splice] puts the children of
    every element that is not allowed in the element's place. *)
Fixpoint map_where (sel : str -> bool) (g : str -> attrs -> str * attrs)
  (n : node) : node :=
  match n with
  | Text _ | Special _ _ => n
  | Elem u nm a kids =>
      let kids' := map (map_where sel g) kids in
      if sel nm then let '(nm', a') := g nm a in Elem u nm' a' kids'
      else Elem u nm a kids'
  end.

Fixpoint splice (n : node) : forest :=
  match n with
  | Text _ | Special _ _ => [n]
  | Elem u nm a kids =>
      if allowed nm then [Elem u nm a (flat_map splice kids)]
      else flat_map splice kids
  end.

Definition uids (f : forest) : list nat := map node_uid (elems_of f).

(** ** Printing the tree: [decode_contents]

    The tree prints with the minimal formatter: [&], [<] and [>] are
    escaped in attribute values and in strings, but for the strings whose
    parent is [<script>] or [<style>]; attributes come sorted by name, a
    value is quoted by double quotes unless it holds one, and a void
    element without children prints as [<name/>]. *)

Definition dquote : char := 34%N.
Definition squote : char := 39%N.

Definition escape_char (c : char) : str :=
  if N.eqb c 38 then lit "&amp;"
  else if N.eqb c 60 then lit "&lt;"
  else if N.eqb c 62 then lit "&gt;"
  else [c].

Definition escape (s : str) : str := flat_map escape_char s.

Definition quoted_attribute_value (v : str) : str :=
  if in_chars v dquote then
    if in_chars v squote then
      [dquote]
      ++ flat_map (fun c => if N.eqb c dquote then lit "&quot;" else [c]) v
      ++ [dquote]
    else [squote] ++ v ++ [squote]
  else [dquote] ++ v ++ [dquote].

(** The order of [str] values: [a <= b]. *)
Fixpoint str_leb (a b : str) : bool :=
  match a, b with
  | [], _ => true
  | _ :: _, [] => false
  | x :: a', y :: b' =>
      if (x <? y)%N then true else if (y <? x)%N then false else str_leb a' b'
  end.

Fixpoint insert_attr (kv : str * attr_value) (l : attrs) : attrs :=
  match l with
  | [] => [kv]
  | kv' :: l' =>
      if str_leb kv.1 kv'.1 then kv :: l else kv' :: insert_attr kv l'
  end.

(** [sorted(tag.attrs.items())]. *)
Definition sorted_attrs (a : attrs) : attrs := fold_right insert_attr [] a.

Definition decode_attr (kv : str * attr_value) : str :=
  lit " " ++ kv.1 ++ lit "=" ++ quoted_attribute_value (escape (attr_text kv.2)).

Definition VOID_TAGS : list str :=
  map lit [ "area"; "base"; "br"; "col"; "embed"; "hr"; "img"; "input";
            "keygen"; "link"; "menuitem"; "meta"; "param"; "source";
            "track"; "wbr";
            "basefont"; "bgsound"; "command"; "frame"; "image"; "isindex";
            "nextid"; "spacer" ]%string.

Definition is_void (name : str) : bool := existsb (str_eqb name) VOID_TAGS.

Definition CDATA_CONTAINING_TAGS : list str :=
  map lit ["script"; "style"]%string.

(** A string, as it prints below an element of name [parent]. *)
Definition output_string (parent : str) (s : str) : str :=
  if existsb (str_eqb parent) CDATA_CONTAINING_TAGS then s else escape s.

(** A node, as it prints below a parent that is neither [<script>] nor
    [<style>]. *)
Fixpoint decode_node (n : node) : str :=
  match n with
  | Text s | Special _ s => escape s
  | Elem _ nm a kids =>
      let attribute_string := flat_map decode_attr (sorted_attrs a) in
      match kids with
      | [] =>
          if is_void nm then lit "<" ++ nm ++ attribute_string ++ lit "/>"
          else lit "<" ++ nm ++ attribute_string ++ lit ">"
               ++ lit "</" ++ nm ++ lit ">"
      | _ =>
          lit "<" ++ nm ++ attribute_string ++ lit ">"
          ++ flat_map (fun k => match k with
                                | Text s | Special _ s => output_string nm s
                                | Elem _ _ _ _ => decode_node k
                                end) kids
          ++ lit "</" ++ nm ++ lit ">"
      end
  end.

(** [tag.decode_contents()] over the children [f] of a cell or of the
    document. *)
Definition decode_contents (f : forest) : str := flat_map decode_node f.

(** ** String rewriting *)

(** [s.replace(old, new)] for a non-empty [old]: occurrences are taken
    from the left and do not overlap; [skip] counts the characters of an
    occurrence still to pass. *)
Fixpoint replace_from (old new : str) (skip : nat) (s : str) : str :=
  match s with
  | [] => []
  | c :: s' =>
      match skip with
      | S k => replace_from old new k s'
      | 0 =>
          if startswith old s
          then new ++ replace_from old new (length old - 1) s'
          else c :: replace_from old new 0 s'
      end
  end.

Definition replace (old new s : str) : str := replace_from old new 0 s.

(** The first occurrence of [pat] in [s]: what is before it and what is
    after it. *)
Fixpoint find_sub (pat s : str) : option (str * str) :=
  match strip_prefix pat s with
  | Some rest => Some ([], rest)
  | None =>
      match s with
      | [] => None
      | c :: s' =>
          match find_sub pat s' with
          | Some (before, after) => Some (c :: before, after)
          | None => None
          end
      end
  end.

Definition FENCE : str := lit "```".

(** [re.sub(r"```(.*?)```", repl, s, flags=re.DOTALL)]: the leftmost
    fence opens a match, the nearest fence after it closes the match, and
    the search goes on after the closing fence.  [fuel] bounds the number
    of matches; the length of [s] is enough. *)
Fixpoint sub_fences_fuel (fuel : nat) (repl : str -> str) (s : str) : str :=
  match fuel with
  | 0 => s
  | S fuel' =>
      match find_sub FENCE s with
      | None => s
      | Some (before, rest) =>
          match find_sub FENCE rest with
          | None => s
          | Some (inner, after) =>
              before ++ repl inner ++ sub_fences_fuel fuel' repl after
          end
      end
  end.

Definition sub_fences (repl : str -> str) (s : str) : str :=
  sub_fences_fuel (length s) repl s.

(** ** The inline sanitizer *)

Definition BR : str := lit "<br/>".

Definition FENCE_DIV_OPEN : str :=
  lit "<div style=" ++ [dquote]
  ++ lit "font-family:Menlo,Consolas,'Courier New',monospace; white-space:pre"
  ++ [dquote] ++ lit ">".

Section sanitizer.
(** [BeautifulSoup(text, "html.parser")]: the children of the parsed
    document. *)
Variable html_parser : str -> forest.

Definition fence_replacer (inner : str) : str :=
  let inner_soup := stage_background (html_parser inner) in
  FENCE_DIV_OPEN ++ decode_contents inner_soup ++ lit "</div>".

(** What [sanitize_inline_html] builds from the tree it has rewritten. *)
Definition sanitize_string (cell : forest) : str :=
  let html_str :=
    replace (lit "<br />") BR (replace (lit "<br>") BR (decode_contents cell)) in
  let tmp := replace BR [newline] html_str in
  let tmp := sub_fences fence_replacer tmp in
  replace [newline] BR tmp.

(** [sanitize_inline_html(cell, strip_all)], on the children of the
    cell.  In rich mode the children are rewritten in place, to
    [sanitize_tree cell]. *)
Definition sanitize_inline_html (cell : forest) (strip_all : bool) : str :=
  if strip_all then get_text_strip (lit " ") cell
  else sanitize_string (sanitize_tree cell).
End sanitizer.

(** ** The run: rows and the output file *)

(** The element of identity [u] as it is in the tree now, and its
    children.  An element that was unwrapped is no longer in the tree and
    has no children left. *)
Definition store_find (u : nat) (store : forest) : option node :=
  head (List.filter (fun n => node_uid n =? u) (elems_of store)).

Definition store_kids (store : forest) (u : nat) : forest :=
  match store_find u store with
  | Some n => node_kids n
  | None => []
  end.

Definition set_kids (g : forest -> forest) (n : node) : forest :=
  match n with
  | Text _ | Special _ _ => [n]
  | Elem u nm a kids => [Elem u nm a (g kids)]
  end.

Record row := {
  row_id : str;      (* Notion-ID *)
  row_front : str;   (* Front *)
  row_back : str;    (* Back *)
  row_tags : str     (* Tags *)
}.

(** [tds[col_map[key]]]. *)
Definition cell_at (col_map : gmap string nat) (key : string)
  (tds : list node) : error + node :=
  match col_map !! key with
  | None => inl KeyError
  | Some i =>
      match tds !! i with
      | None => inl IndexError
      | Some td => inr td
      end
  end.

Definition bind_error {A B} (x : error + A) (k : A -> error + B) : error + B :=
  match x with
  | inl e => inl e
  | inr a => k a
  end.

Notation "'let?' x := c 'in' k" := (bind_error c (fun x => k))
  (at level 10, x name, c at level 100, k at level 200).

Section run.
Variable html_parser : str -> forest.
Variable unicode_lower : str -> nat -> str.

(** One turn of the loop over the rows: nothing for a row without cells,
    else the row and the tree as the turn leaves it (the back cell is
    sanitized in place). *)
Definition row_step (col_map : gmap string nat) (store : forest) (tr : node)
  : error + (option row * forest) :=
  let tds := find_all (lit "td") (store_kids store (node_uid tr)) in
  match tds with
  | [] => inr (None, store)
  | _ =>
      let? td_id := cell_at col_map "id" tds in
      let notion_id := get_text_strip [] (node_kids td_id) in
      let? td_front := cell_at col_map "front" tds in
      let front_plain :=
        sanitize_inline_html html_parser (node_kids td_front) true in
      let? td_back := cell_at col_map "back" tds in
      let back_html :=
        sanitize_inline_html html_parser (node_kids td_back) false in
      let store' := rewrite_at (node_uid td_back) (set_kids sanitize_tree) store in
      let? tags := match col_map !! "tags"%string with
              | Some _ =>
                  let? td_tags := cell_at col_map "tags" tds in
                  inr (tags_from_cell (store_kids store' (node_uid td_tags)))
              | None => inr []
              end in
      inr (Some {| row_id := notion_id; row_front := front_plain;
                   row_back := back_html; row_tags := tags |},
           store')
  end.

Fixpoint rows_loop (col_map : gmap string nat) (trs : list node)
  (store : forest) (rows_out : list row) : error + list row :=
  match trs with
  | [] => inr rows_out
  | tr :: trs' =>
      match row_step col_map store tr with
      | inl e => inl e
      | inr (None, store') => rows_loop col_map trs' store' rows_out
      | inr (Some r, store') => rows_loop col_map trs' store' (rows_out ++ [r])
      end
  end.

(** Everything [convert_file] does before it opens the output file. *)
Definition collect_rows (html : str) : error + list row :=
  let soup := html_parser html in
  let? tc := parse_table unicode_lower soup in
  let '(table, col_map) := tc in
  match find (lit "tbody") (node_kids table) with
  | None => inl AttributeError
  | Some tbody =>
      rows_loop col_map (find_all (lit "tr") (node_kids tbody)) soup []
  end.
End run.

(** *** The CSV writer *)

Definition CRLF : str := [13%N; 10%N].

Definition needs_quotes (field : str) : bool :=
  existsb (fun c => in_chars (lit "," ++ [dquote] ++ CRLF) c) field.

Definition csv_field (field : str) : str :=
  if needs_quotes field then
    [dquote]
    ++ flat_map (fun c => if N.eqb c dquote then [dquote; dquote] else [c])
         field
    ++ [dquote]
  else field.

Definition csv_line (fields : list str) : str :=
  join (lit ",") (map csv_field fields) ++ CRLF.

Definition FIELDNAMES : list str :=
  map lit ["Notion-ID"; "Front"; "Back"; "Tags"]%string.

Definition row_fields (r : row) : list str :=
  [row_id r; row_front r; row_back r; row_tags r].

(** *** The output file

    The file at [output_path]: [None] while it does not exist, else its
    content. *)
Abbreviation file := (option str).

(** [open(output_path, "w", newline="", encoding="utf-8")]: the file
    exists from now on, and is empty. *)
Definition open_w (f : file) : file := Some [].

(** UTF-8 encodes every character but the surrogates, U+D800 to
    U+DFFF. *)
Definition is_surrogate (c : char) : bool :=
  ((55296 <=? c) && (c <=? 57343))%N.

Definition encodable (data : str) : bool :=
  forallb (fun c => negb (is_surrogate c)) data.

(** [f.write(data)]: the text goes to the file if it can be encoded;
    else the call raises, and the file keeps what was written before. *)
Definition write (data : str) (f : file) : (error + unit) * file :=
  if encodable data then
    (inr tt, match f with
             | Some content => Some (content ++ data)
             | None => None
             end)
  else (inl UnicodeEncodeError, f).

(** [writer.writerows(rows_out)]: one [write] for each row. *)
Fixpoint write_rows (rows_out : list row) (f : file)
  : (error + unit) * file :=
  match rows_out with
  | [] => (inr tt, f)
  | r :: rows' =>
      match write (csv_line (row_fields r)) f with
      | (inl e, f') => (inl e, f')
      | (inr _, f') => write_rows rows' f'
      end
  end.

(** The [with] block of [convert_file]: the file is opened, the header
    line and the rows are written to it, and it is closed whether or not
    a [write] has raised. *)
Definition write_csv (rows_out : list row) (out : file)
  : (error + unit) * file :=
  let f := open_w out in
  match write (csv_line FIELDNAMES) f with
  | (inl e, f') => (inl e, f')
  | (inr _, f') => write_rows rows_out f'
  end.

(** [convert_file(input_path, output_path)], from the text read from
    [input_path]: the outcome and the file at [output_path]. *)
Definition convert_file (html_parser : str -> forest)
  (unicode_lower : str -> nat -> str) (html : str) (out : file)
  : (error + unit) * file :=
  match collect_rows html_parser unicode_lower html with
  | inl e => (inl e, out)
  | inr rows_out => write_csv rows_out out
  end.

(** ** Auxiliary definitions for the statements *)

(** What the loop makes of one token, and the test against [clean]. *)
Definition tag_norm (tok : str) : str :=
  strip_chars (lit ",;") (sub_runs is_space (lit "-") (strip tok)).

Definition notin (clean : list str) (y : str) : bool :=
  negb (bool_decide (y ∈ clean)).

(** The identities of the elements whose name is selected, in document
    order. *)
Definition selected (sel : str -> bool) (f : forest) : list nat :=
  map node_uid (List.filter (fun n => sel (node_name n)) (elems_of f)).

(** The five loops of the sanitizer, by recursion on the tree. *)
Definition sanitize_tree_rec (cell : forest) : forest :=
  map (map_where (fun _ => true) (fun nm a => (nm, strip_background_attrs a)))
    (flat_map splice
       (map (map_where (fun nm => str_eqb nm (lit "a"))
                       (fun nm a => (nm, keep_href a)))
          (map (map_where (fun nm => str_eqb nm (lit "span"))
                          (fun nm a => (nm, convert_color_classes_to_inline a)))
             (map (map_where (fun nm => str_eqb nm (lit "mark"))
                             (fun _ a => (lit "span",
                                          convert_color_classes_to_inline a)))
                  cell)))).

(** A parser for markup-free text, as [html.parser] reads a string
    without [<] and [&]. *)
Definition text_parser (s : str) : forest :=
  match s with [] => [] | _ => [Text s] end.

(** Case tables under which no character from U+0100 on has a lowercase
    of its own. *)
Definition no_wide_case (s : str) (i : nat) : str :=
  match s !! i with Some c => [c] | None => [] end.

(** An allowed element after the unwrapping of what is below it. *)
Definition splice_elem (n : node) : node :=
  match n with
  | Text _ | Special _ _ => n
  | Elem u nm a kids => Elem u nm a (flat_map splice kids)
  end.

(** Distinct identities in a given tree, by evaluation. *)
Ltac distinct_uids := apply (bool_decide_unpack _); vm_compute; exact I.

(** The declarations of a style: the pieces between semicolons that are
    not blank. *)
Definition decls (style : str) : list str :=
  List.filter (fun s => nonempty (strip s)) (split_char semicolon style).

(** Small tables for the examples. *)
Definition th (u : nat) (s : string) : node :=
  Elem u (lit "th") [] [Text (lit s)].

Definition td (u : nat) (kids : forest) : node := Elem u (lit "td") [] kids.

Definition table_of (u : nat) (ths : forest) (trs : forest) : forest :=
  [Elem u (lit "table") []
     [Elem (u + 1) (lit "thead") [] [Elem (u + 2) (lit "tr") [] ths];
      Elem (u + 3) (lit "tbody") [] trs]].

Definition HEADER_LINE : str := lit "Notion-ID,Front,Back,Tags" ++ CRLF.

(** The line of a row, and whether UTF-8 can encode the fields of a
    row. *)
Definition row_line (r : row) : str := csv_line (row_fields r).

Definition row_encodable (r : row) : bool :=
  forallb encodable (row_fields r).

(** Does the row have cells, in the tree as it is now? *)
Definition has_cells (store : forest) (tr : node) : bool :=
  match find_all (lit "td") (store_kids store (node_uid tr)) with
  | [] => false
  | _ => true
  end.


(** The attributes an element of the cell has after the loops over the
    marks, the spans and the links, by the name it had. *)
Definition head_attrs (nm : str) (a : attrs) : attrs :=
  if str_eqb nm (lit "mark")
  then convert_color_classes_to_inline (convert_color_classes_to_inline a)
  else if str_eqb nm (lit "span") then convert_color_classes_to_inline a
  else if str_eqb nm (lit "a") then keep_href a
  else a.

Definition head_name (nm : str) : str :=
  if str_eqb nm (lit "mark") then lit "span" else nm.

(** ** Rows, read from the tree as it was parsed

    [row_of] is the row that [convert_file] makes of a table row when
    every cell is read from the parsed tree; [rows_of] collects the rows
    in document order and stops at the first failure. *)
Definition row_of (html_parser : str -> forest) (col_map : gmap string nat)
  (tr : node) : error + option row :=
  let tds := find_all (lit "td") (node_kids tr) in
  match tds with
  | [] => inr None
  | _ =>
      let? td_id := cell_at col_map "id" tds in
      let? td_front := cell_at col_map "front" tds in
      let? td_back := cell_at col_map "back" tds in
      let? tags := match col_map !! "tags"%string with
                   | Some _ =>
                       let? td_tags := cell_at col_map "tags" tds in
                       inr (tags_from_cell (node_kids td_tags))
                   | None => inr []
                   end in
      inr (Some {| row_id := get_text_strip [] (node_kids td_id);
                   row_front := get_text_strip (lit " ") (node_kids td_front);
                   row_back := sanitize_inline_html html_parser
                                 (node_kids td_back) false;
                   row_tags := tags |})
  end.

Fixpoint rows_of (html_parser : str -> forest) (col_map : gmap string nat)
  (trs : list node) : error + list row :=
  match trs with
  | [] => inr []
  | tr :: trs' =>
      let? r := row_of html_parser col_map tr in
      let? rows := rows_of html_parser col_map trs' in
      inr (match r with Some r => r :: rows | None => rows end)
  end.

(** The children of the cell at an index, and the row made of the cells
    at the indices [i], [j] and [k] (and [t], with a tags column) of a
    table row.  A row is complete when it has a cell at each of these
    indices. *)
Definition cell_kids (tds : list node) (i : nat) : forest :=
  match tds !! i with Some td => node_kids td | None => [] end.

Definition emitted_row (html_parser : str -> forest) (i j k : nat)
  (t : option nat) (tr : node) : row :=
  let tds := find_all (lit "td") (node_kids tr) in
  {| row_id := get_text_strip [] (cell_kids tds i);
     row_front := get_text_strip (lit " ") (cell_kids tds j);
     row_back := sanitize_inline_html html_parser (cell_kids tds k) false;
     row_tags := match t with
                 | Some t => tags_from_cell (cell_kids tds t)
                 | None => []
                 end |}.

Definition complete_row (i j k : nat) (t : option nat) (tr : node) : bool :=
  let n := length (find_all (lit "td") (node_kids tr)) in
  (i <? n) && (j <? n) && (k <? n)
  && match t with Some t => t <? n | None => true end.

(** A row is flat when no row is below it and no cell is below one of
    its cells. *)
Definition flat_row (tr : node) : bool :=
  forallb (fun n => negb (str_eqb (node_name n) (lit "tr")))
          (elems_of (node_kids tr))
  && forallb (fun td =>
                forallb (fun n => negb (str_eqb (node_name n) (lit "td")))
                        (elems_of (node_kids td)))
             (find_all (lit "td") (node_kids tr)).

(** Does the row, as parsed, have cells? *)
Definition row_has_cells (tr : node) : bool :=
  match find_all (lit "td") (node_kids tr) with
  | [] => false
  | _ => true
  end.
Example convert_red :
  convert_color_classes_to_inline
    [(lit "class", AList [lit "highlight-red"; lit "x"])]
  = [(lit "class", AList [lit "x"]); (lit "style", AStr (lit "color:red"))].
Proof. vm_compute. reflexivity. Qed.

(** ** Facts about dict operations *)

Lemma attr_get_pop k a : attr_get k (attr_pop k a) = None.
Proof.
  induction a as [|[k' v] a IH]; simpl; [done|].
  unfold str_eqb. case_bool_decide as E; [done|].
  simpl. unfold str_eqb. by rewrite bool_decide_eq_false_2.
Qed.

Lemma attr_get_set k v a : attr_get k (attr_set k v a) = Some v.
Proof.
  induction a as [|[k' v'] a IH]; simpl; unfold str_eqb.
  - by rewrite bool_decide_eq_true_2.
  - case_bool_decide as E; simpl; unfold str_eqb.
    + by rewrite bool_decide_eq_true_2.
    + by rewrite bool_decide_eq_false_2.
Qed.

Lemma attr_get_set_ne k k' v a :
  k <> k' -> attr_get k (attr_set k' v a) = attr_get k a.
Proof.
  intros Hne. induction a as [|[k0 v0] a IH]; simpl; unfold str_eqb.
  - by rewrite bool_decide_eq_false_2.
  - case_bool_decide as E; simpl; unfold str_eqb.
    + subst k0. by rewrite !bool_decide_eq_false_2.
    + case_bool_decide; [done|]. apply IH.
Qed.

Lemma attr_set_same k v a :
  attr_get k a = Some v -> attr_set k v a = a.
Proof.
  induction a as [|[k' v'] a IH]; simpl; [done|].
  unfold str_eqb. case_bool_decide as E.
  - intros [= ->]. done.
  - intros H. by rewrite IH.
Qed.

Lemma list_remove_skip x pre r :
  Forall (fun y => y <> x) pre -> list_remove x (pre ++ x :: r) = pre ++ r.
Proof.
  induction 1 as [|y pre Hy _ IH]; simpl; unfold str_eqb.
  - by rewrite bool_decide_eq_true_2.
  - rewrite bool_decide_eq_false_2; [|congruence]. by rewrite IH.
Qed.

(** ** The loop of the normalizer *)

Lemma color_class_step_miss cls classes a :
  color_class_key cls = None ->
  color_class_step (classes, a) cls = (classes, a).
Proof. intros H. unfold color_class_step. by rewrite H. Qed.

Lemma color_class_step_hit cls key classes a :
  color_class_key cls = Some key ->
  color_class_step (classes, a) cls
  = (list_remove cls classes,
     match class_color cls with Some col => add_color a col | None => a end).
Proof.
  intros H. unfold color_class_step, class_color, add_color. rewrite H.
  destruct (endswith (lit "_background") key); [done|].
  by destruct (dict_get key CSS_COLOR_MAP).
Qed.

Lemma color_class_loop rest : forall pre a,
  Forall (fun y => is_color_class y = false) pre ->
  fold_left color_class_step rest (pre ++ rest, a)
  = (pre ++ List.filter (fun c => negb (is_color_class c)) rest,
     fold_left add_color (omap class_color rest) a).
Proof.
  induction rest as [|cls rest IH]; intros pre a Hpre; [done|].
  cbn [fold_left List.filter omap list_omap].
  destruct (color_class_key cls) as [key|] eqn:Hk.
  - rewrite (color_class_step_hit _ key) by done.
    rewrite list_remove_skip.
    2:{ eapply Forall_impl; [exact Hpre|]. intros y Hy ->.
        unfold is_color_class in Hy. by rewrite Hk in Hy. }
    assert (is_color_class cls = true) as ->
      by (unfold is_color_class; by rewrite Hk).
    cbn [negb]. rewrite IH by done.
    by destruct (class_color cls).
  - rewrite color_class_step_miss by done.
    assert (is_color_class cls = false) as Hc
      by (unfold is_color_class; by rewrite Hk).
    assert (class_color cls = None) as ->
      by (unfold class_color; by rewrite Hk).
    rewrite Hc. cbn [negb].
    replace (pre ++ cls :: rest) with ((pre ++ [cls]) ++ rest)
      by (by rewrite <- app_assoc).
    rewrite IH.
    + by rewrite <- app_assoc.
    + apply Forall_app. split; [done|]. by constructor.
Qed.

Lemma convert_color_classes_unfold a c cs :
  attr_get (lit "class") a = Some (AList (c :: cs)) ->
  convert_color_classes_to_inline a
  = put_classes (List.filter (fun x => negb (is_color_class x)) (c :: cs))
      (fold_left add_color (omap class_color (c :: cs)) a).
Proof.
  intros H. unfold convert_color_classes_to_inline. rewrite H.
  pose proof (color_class_loop (c :: cs) [] a ltac:(constructor)) as L.
  rewrite !app_nil_l in L. rewrite L. reflexivity.
Qed.

Lemma filter_Forall {A} (f : A -> bool) l :
  Forall (fun x => f x = true) (List.filter f l).
Proof.
  induction l as [|x l IH]; simpl; [constructor|].
  destruct (f x) eqn:E; [by constructor|done].
Qed.

Lemma filter_all {A} (f : A -> bool) l :
  Forall (fun x => f x = true) l -> List.filter f l = l.
Proof.
  induction 1 as [|x l Hx _ IH]; simpl; [done|]. by rewrite Hx, IH.
Qed.

Lemma omap_class_color_none l :
  Forall (fun x => negb (is_color_class x) = true) l ->
  omap class_color l = [].
Proof.
  induction 1 as [|x l Hx _ IH]; [done|].
  cbn [omap list_omap]. rewrite IH.
  unfold is_color_class in Hx. unfold class_color.
  by destruct (color_class_key x).
Qed.

Lemma span_by_all p s :
  forallb p s = true -> span_by p s = (s, []).
Proof.
  induction s as [|c s IH]; simpl; [done|].
  destruct (p c); simpl; [|done]. intros H. by rewrite IH.
Qed.

Lemma strip_prefix_app p s : strip_prefix p (p ++ s) = Some s.
Proof.
  induction p as [|c p IH]; simpl; [done|]. by rewrite N.eqb_refl.
Qed.

Lemma key_to_end_key key :
  key <> [] -> forallb is_key_char key = true -> key_to_end key = Some key.
Proof.
  intros Hne Hall. unfold key_to_end. rewrite span_by_all by done.
  destruct key; [done|]. unfold str_eqb. by rewrite bool_decide_eq_true_2.
Qed.

Lemma color_class_key_highlight key :
  key <> [] -> forallb is_key_char key = true ->
  color_class_key (lit "highlight-" ++ key) = Some key.
Proof.
  intros. unfold color_class_key. rewrite strip_prefix_app.
  by apply key_to_end_key.
Qed.

Lemma color_class_key_block key :
  key <> [] -> forallb is_key_char key = true ->
  color_class_key (lit "block-color-" ++ key) = Some key.
Proof.
  intros. unfold color_class_key.
  change (strip_prefix (lit "highlight-") (lit "block-color-" ++ key))
    with (@None str).
  rewrite strip_prefix_app. by apply key_to_end_key.
Qed.

Lemma style_of_add_color a col :
  style_of (add_color a col)
  = match rstrip_chars (lit ";") (strip (style_of a)) with
    | [] => lit "color:" ++ col
    | e => e ++ lit ";" ++ lit "color:" ++ col
    end.
Proof.
  unfold add_color, merge_style, style_of at 1. rewrite attr_get_set.
  cbn [attr_text]. by destruct (rstrip_chars _ _).
Qed.

(** C3. For an element whose class list is not empty: every token
    [highlight-<key>] or [block-color-<key>] is removed from the class
    list, the other tokens stay in their order, and the class attribute is
    deleted when nothing stays; each such token whose key is in the color
    map and does not end in [_background] appends [color:<css-color>] to
    the inline style, after the existing style and a [;] when there is
    one; a key that ends in [_background] or is unknown adds nothing. *)
Theorem convert_color_classes_spec (a : attrs) (c : str) (cs : list str) :
  attr_get (lit "class") a = Some (AList (c :: cs)) ->
  let kept := List.filter (fun x => negb (is_color_class x)) (c :: cs) in
  let colors := omap class_color (c :: cs) in
  convert_color_classes_to_inline a
    = put_classes kept (fold_left add_color colors a)
  /\ attr_get (lit "class") (convert_color_classes_to_inline a)
     = match kept with [] => None | _ => Some (AList kept) end
  /\ (colors = [] ->
      attr_get (lit "style") (convert_color_classes_to_inline a)
      = attr_get (lit "style") a)
  /\ (forall a0 col,
        style_of (add_color a0 col)
        = match rstrip_chars (lit ";") (strip (style_of a0)) with
          | [] => lit "color:" ++ col
          | e => e ++ lit ";" ++ lit "color:" ++ col
          end)
  /\ (forall prefix key,
        prefix = lit "highlight-" \/ prefix = lit "block-color-" ->
        key <> [] -> forallb is_key_char key = true ->
        is_color_class (prefix ++ key) = true
        /\ class_color (prefix ++ key)
           = if endswith (lit "_background") key then None
             else dict_get key CSS_COLOR_MAP).
Proof.
  intros Hc kept colors.
  pose proof (convert_color_classes_unfold a c cs Hc) as E.
  fold kept colors in E. rewrite E.
  split; [done|]. split.
  { unfold put_classes. destruct kept.
    - apply attr_get_pop.
    - apply attr_get_set. }
  split.
  { intros ->. cbn [fold_left]. unfold put_classes. destruct kept.
    - clear. induction a as [|[k v] a IH]; [done|].
      cbn [attr_pop attr_get]. unfold str_eqb.
      case_bool_decide as E1.
      + rewrite bool_decide_eq_false_2; [done|]. by rewrite <- E1.
      + cbn [attr_get]. unfold str_eqb. case_bool_decide; [done|]. apply IH.
    - by apply attr_get_set_ne. }
  split; [apply style_of_add_color|].
  intros prefix key Hp Hne Hall.
  assert (color_class_key (prefix ++ key) = Some key) as Hk.
  { destruct Hp as [-> | ->];
      [by apply color_class_key_highlight | by apply color_class_key_block]. }
  unfold is_color_class, class_color. by rewrite Hk.
Qed.

Lemma convert_color_classes_spec_witness :
  convert_color_classes_to_inline
    [(lit "class", AList [lit "block-color-blue"; lit "note"; lit "highlight-red_background"]);
     (lit "style", AStr (lit "margin:0;"))]
  = [(lit "class", AList [lit "note"]);
     (lit "style", AStr (lit "margin:0;color:blue"))].
Proof.
  exact (proj1 (convert_color_classes_spec
    [(lit "class", AList [lit "block-color-blue"; lit "note"; lit "highlight-red_background"]);
     (lit "style", AStr (lit "margin:0;"))]
    (lit "block-color-blue") [lit "note"; lit "highlight-red_background"]
    eq_refl)).
Defined.

(** C10. The normalizer is idempotent: a second application changes
    neither the classes nor the style, nor anything else of the element's
    attributes. *)
Theorem convert_color_classes_idempotent (a : attrs) :
  convert_color_classes_to_inline (convert_color_classes_to_inline a)
  = convert_color_classes_to_inline a.
Proof.
  destruct (attr_get (lit "class") a) as [[s|[|c cs]]|] eqn:Hc;
    try (assert (convert_color_classes_to_inline a = a) as ->
           by (unfold convert_color_classes_to_inline; by rewrite Hc);
         unfold convert_color_classes_to_inline; by rewrite Hc).
  rewrite (convert_color_classes_unfold a c cs Hc).
  set (styled := fold_left add_color _ a).
  pose proof (filter_Forall (fun x => negb (is_color_class x)) (c :: cs)) as Hk.
  destruct (List.filter _ (c :: cs)) as [|k ks]; unfold put_classes.
  - unfold convert_color_classes_to_inline. by rewrite attr_get_pop.
  - rewrite (convert_color_classes_unfold _ k ks) by apply attr_get_set.
    rewrite filter_all by done. rewrite omap_class_color_none by done.
    cbn [fold_left put_classes].
    apply attr_set_same, attr_get_set.
Qed.

(** ** The tag extractor *)

Example tags_example :
  tags_from_text (lit "foo, Bar Baz;; qux") = lit "foo Bar-Baz qux".
Proof. vm_compute. reflexivity. Qed.

Example tags_described_example :
  tags_described (lit "foo, Bar Baz;; qux , foo,FOO") = lit "foo Bar-Baz qux FOO".
Proof. vm_compute. reflexivity. Qed.

Example tags_example2 :
  tags_from_text (lit "foo, Bar Baz;; qux , foo,FOO") = lit "foo Bar-Baz qux FOO".
Proof. vm_compute. reflexivity. Qed.

(** *** Stripping *)

Lemma lstrip_by_split p s :
  exists w, s = w ++ lstrip_by p s /\ Forall (fun c => p c = true) w.
Proof.
  induction s as [|c s [w [E F]]]; simpl.
  - exists []. by split.
  - destruct (p c) eqn:Hc.
    + exists (c :: w). split; [by rewrite E at 1|by constructor].
    + exists []. by split.
Qed.

Lemma lstrip_by_head p s :
  lstrip_by p s = s <-> s = [] \/ exists c s', s = c :: s' /\ p c = false.
Proof.
  split.
  - destruct s as [|c s]; [by left|]. simpl. destruct (p c) eqn:Hc.
    + intros E. destruct (lstrip_by_split p s) as [w [E' _]].
      rewrite E in E'. apply (f_equal (@length _)) in E'.
      rewrite length_app in E'. simpl in E'. lia.
    + intros _. right. by exists c, s.
  - intros [-> | (c & s' & -> & Hc)]; simpl; [done|]. by rewrite Hc.
Qed.

Lemma lstrip_by_idem p s : lstrip_by p (lstrip_by p s) = lstrip_by p s.
Proof.
  induction s as [|c s IH]; simpl; [done|].
  destruct (p c) eqn:Hc; [done|]. simpl. by rewrite Hc.
Qed.

Lemma rstrip_by_split p s :
  exists w, s = rstrip_by p s ++ w.
Proof.
  unfold rstrip_by. destruct (lstrip_by_split p (rev s)) as [w [E _]].
  exists (rev w). rewrite <- rev_app_distr, <- E. by rewrite rev_involutive.
Qed.

Lemma strip_by_fixed p u :
  lstrip_by p u = u -> lstrip_by p (rev u) = rev u -> strip_by p u = u.
Proof.
  intros H1 H2. unfold strip_by, rstrip_by. rewrite H1, H2.
  apply rev_involutive.
Qed.

Lemma strip_by_idem p s : strip_by p (strip_by p s) = strip_by p s.
Proof.
  apply strip_by_fixed.
  - unfold strip_by. set (t := lstrip_by p s).
    assert (lstrip_by p t = t) as Ht by apply lstrip_by_idem.
    apply lstrip_by_head. apply lstrip_by_head in Ht.
    destruct (rstrip_by p t) as [|c' r] eqn:Er; [by left|]. right.
    exists c', r. split; [done|].
    destruct (rstrip_by_split p t) as [w Ew]. rewrite Er in Ew.
    destruct Ht as [Ht | (c & t' & Ht & Hc)]; rewrite Ht in Ew; [done|].
    simpl in Ew. by injection Ew as <- _.
  - unfold strip_by, rstrip_by. rewrite rev_involutive.
    apply lstrip_by_idem.
Qed.

Lemma lstrip_by_Forall (Q : char -> Prop) p s :
  Forall Q s -> Forall Q (lstrip_by p s).
Proof.
  induction 1 as [|c s Hc Hs IH]; simpl; [constructor|].
  destruct (p c); [done|by constructor].
Qed.

Lemma strip_by_Forall (Q : char -> Prop) p s :
  Forall Q s -> Forall Q (strip_by p s).
Proof.
  intros H. unfold strip_by, rstrip_by.
  apply Forall_rev, lstrip_by_Forall, Forall_rev.
  by apply lstrip_by_Forall.
Qed.

Lemma lstrip_by_none p s :
  Forall (fun c => p c = false) s -> lstrip_by p s = s.
Proof. destruct 1 as [|c s Hc _]; simpl; [done|]. by rewrite Hc. Qed.

Lemma strip_by_none p s :
  Forall (fun c => p c = false) s -> strip_by p s = s.
Proof.
  intros H. apply strip_by_fixed; apply lstrip_by_none; [done|].
  by apply Forall_rev.
Qed.

(** *** Splitting and dashing *)

Lemma split_runs_pieces p s :
  Forall (Forall (fun c => p c = false)) (split_runs p s).
Proof.
  induction s as [|c s IH]; simpl.
  - by repeat constructor.
  - destruct (p c) eqn:Hc.
    + destruct s as [|d s']; [by repeat constructor|].
      destruct (p d); [done|]. by constructor.
    + destruct (split_runs p s) as [|piece pieces]; [by repeat constructor|].
      inversion IH; subst. constructor; [by constructor|done].
Qed.

Lemma sub_runs_Forall (Q : char -> Prop) p r s :
  Forall Q r -> Forall Q s -> Forall Q (sub_runs p r s).
Proof.
  intros Hr. induction 1 as [|c s Hc Hs IH]; simpl; [constructor|].
  destruct (p c).
  - destruct s as [|d s']; [by rewrite app_nil_r|].
    destruct (p d); [done|]. by apply Forall_app.
  - by constructor.
Qed.

(** *** The loop over the tokens *)

Lemma filter_filter {A} (f g : A -> bool) l :
  List.filter f (List.filter g l) = List.filter (fun x => g x && f x) l.
Proof.
  induction l as [|x l IH]; simpl; [done|].
  destruct (g x); simpl; [|done]. destruct (f x); by rewrite IH.
Qed.

Lemma tags_loop toks : forall clean (seen : gset str),
  (forall y, y ∈ seen <-> y ∈ clean) ->
  (fold_left tags_step toks (clean, seen)).1
  = clean ++ List.filter (notin clean)
               (dedup_first (List.filter nonempty (map tag_norm toks))).
Proof.
  induction toks as [|tok toks IH]; intros clean seen Hs.
  - simpl. by rewrite app_nil_r.
  - cbn [fold_left map]. unfold tags_step at 2. fold (tag_norm tok).
    cbn [List.filter]. destruct (nonempty (tag_norm tok)) eqn:Hne; cbn [andb].
    2:{ by apply IH. }
    cbn [dedup_first List.filter].
    case_bool_decide as Hin; cbn [negb].
    + apply Hs in Hin.
      assert (notin clean (tag_norm tok) = false) as ->
        by (unfold notin; by rewrite bool_decide_eq_true_2).
      rewrite IH by done. f_equal. rewrite filter_filter.
      apply filter_ext. intros y. unfold notin, str_eqb.
      repeat case_bool_decide; try done. by subst.
    + assert (tag_norm tok ∉ clean) as Hin' by (by rewrite <- Hs).
      assert (notin clean (tag_norm tok) = true) as ->
        by (unfold notin; by rewrite bool_decide_eq_false_2).
      rewrite IH.
      2:{ intros y. rewrite elem_of_union, elem_of_singleton, elem_of_app,
            list_elem_of_singleton, Hs. tauto. }
      rewrite <- app_assoc. cbn [app]. do 2 f_equal.
      rewrite filter_filter. apply filter_ext. intros y.
      unfold notin, str_eqb.
      repeat case_bool_decide; simpl; try done; exfalso;
        rewrite ?elem_of_app, ?list_elem_of_singleton in *; tauto.
Qed.

Lemma tag_sep_free_norm piece :
  Forall (fun c => is_tag_sep c = false) piece ->
  tag_norm (strip piece) = sub_runs is_space (lit "-") (strip piece).
Proof.
  intros H. unfold tag_norm, strip, strip_chars.
  rewrite strip_by_idem. apply strip_by_none.
  apply sub_runs_Forall.
  - by repeat constructor.
  - apply strip_by_Forall. eapply Forall_impl; [exact H|].
    intros c Hc. unfold is_tag_sep in Hc. by apply orb_false_elim in Hc as [? _].
Qed.

Lemma tag_tokens_described pieces :
  Forall (Forall (fun c => is_tag_sep c = false)) pieces ->
  List.filter nonempty
    (map tag_norm
       (map strip (List.filter (fun t => nonempty (strip t)) pieces)))
  = List.filter nonempty
      (map (fun t => sub_runs is_space (lit "-") (strip t)) pieces).
Proof.
  induction 1 as [|piece pieces Hp _ IH]; [done|].
  cbn [List.filter map].
  destruct (nonempty (strip piece)) eqn:Hne.
  - cbn [map List.filter]. rewrite tag_sep_free_norm by done. by rewrite IH.
  - destruct (strip piece); [|done]. by cbn.
Qed.

(** C4. The extractor is the described one: pieces between runs of
    comma, semicolon and newline, each trimmed, inner whitespace runs
    turned into one dash, empty tokens dropped, equal tokens (compared
    exactly) kept at their first place only, joined by one space.  The
    empty text gives the empty string, and the text of the example gives
    the tags of the example. *)
Theorem tags_from_text_described :
  (forall raw, tags_from_text raw = tags_described raw)
  /\ tags_from_text [] = []
  /\ tags_from_cell [] = []
  /\ tags_from_text (lit "foo, Bar Baz;; qux") = lit "foo Bar-Baz qux"
  /\ tags_from_cell [Text (lit " foo, Bar Baz;; qux ")] = lit "foo Bar-Baz qux".
Proof.
  split; [|by repeat split; vm_compute].
  intros raw. unfold tags_from_text, tags_described.
  pose proof (tags_loop
    (map strip (List.filter (fun t => nonempty (strip t))
                  (split_runs is_tag_sep raw))) [] ∅) as L.
  destruct (fold_left tags_step _ _) as [clean seen].
  cbn [fst app] in L. rewrite L by set_solver.
  rewrite tag_tokens_described by apply split_runs_pieces.
  f_equal. apply filter_all.
  apply Forall_forall. intros y _. unfold notin.
  by rewrite bool_decide_eq_false_2 by set_solver.
Qed.

(** ** The column map *)

Example col_map_example :
  let m := col_map_of [lit "front"; lit "back"; lit "my tags"; lit "notion-id tags"; lit "front"] in
  (m !! "id"%string, m !! "front"%string, m !! "back"%string, m !! "tags"%string)
  = (Some 3, Some 4, Some 1, Some 2).
Proof. vm_compute. reflexivity. Qed.

Lemma col_map_step_rule m i name :
  col_map_step m (i, name)
  = match header_rule name with Some k => <[k := i]> m | None => m end.
Proof.
  unfold col_map_step, header_rule, str_eqb.
  destruct (contains (lit "notion-id") name); [done|].
  repeat (case_bool_decide; subst; try done).
  by destruct (contains (lit "tags") name).
Qed.

Lemma enumerate_from_app {A} (l1 l2 : list A) i :
  enumerate_from i (l1 ++ l2)
  = enumerate_from i l1 ++ enumerate_from (i + length l1) l2.
Proof.
  revert i. induction l1 as [|x l1 IH]; intros i; simpl.
  - by rewrite Nat.add_0_r.
  - rewrite IH. by rewrite Nat.add_succ_r.
Qed.

Lemma col_map_of_snoc headers name :
  col_map_of (headers ++ [name])
  = col_map_step (col_map_of headers) (length headers, name).
Proof.
  unfold col_map_of, enumerate. rewrite enumerate_from_app, fold_left_app.
  reflexivity.
Qed.

Lemma col_map_of_lookup (headers : list str) (k : string) (i : nat) :
  col_map_of headers !! k = Some i <->
  (exists name, headers !! i = Some name /\ header_rule name = Some k) /\
  (forall j name, i < j -> headers !! j = Some name -> header_rule name <> Some k).
Proof.
  revert i. induction headers as [|name headers IH] using rev_ind; intros i.
  - unfold col_map_of. simpl. rewrite lookup_empty. split; [done|].
    intros [(name & H & _) _]. done.
  - rewrite col_map_of_snoc, col_map_step_rule.
    destruct (decide (header_rule name = Some k)) as [Hk|Hk].
    + rewrite Hk, lookup_insert_eq. split.
      * intros [= <-]. split.
        -- exists name. split; [|done].
           by rewrite lookup_app_r, Nat.sub_diag by lia.
        -- intros j name' Hj Hl. apply lookup_lt_Some in Hl.
           rewrite length_app in Hl. simpl in Hl. lia.
      * intros [(name' & Hl & Hr) Hlast]. f_equal.
        pose proof (lookup_lt_Some _ _ _ Hl) as Hlt.
        rewrite length_app in Hlt. simpl in Hlt.
        destruct (decide (i = length headers)) as [->|Hne]; [done|].
        exfalso. apply (Hlast (length headers) name); [lia| |done].
        by rewrite lookup_app_r, Nat.sub_diag by lia.
    + assert (match header_rule name with
              | Some k0 => <[k0:=length headers]> (col_map_of headers)
              | None => col_map_of headers
              end !! k = col_map_of headers !! k) as ->.
      { destruct (header_rule name) as [k0|]; [|done].
        rewrite lookup_insert_ne; [done|congruence]. }
      rewrite IH. split.
      * intros [(name' & Hl & Hr) Hlast]. split.
        -- exists name'. split; [|done]. by apply lookup_app_l_Some.
        -- intros j name'' Hj Hl'.
           destruct (decide (j < length headers)).
           ++ rewrite lookup_app_l in Hl' by done. by eapply Hlast.
           ++ rewrite lookup_app_r in Hl' by lia.
              destruct (j - length headers); [|done]. simpl in Hl'. congruence.
      * intros [(name' & Hl & Hr) Hlast].
        assert (i < length headers) as Hlt.
        { pose proof (lookup_lt_Some _ _ _ Hl) as Hlt.
          rewrite length_app in Hlt. simpl in Hlt.
          destruct (decide (i = length headers)) as [->|]; [|lia].
          rewrite lookup_app_r, Nat.sub_diag in Hl by lia.
          simpl in Hl. congruence. }
        rewrite lookup_app_l in Hl by done. split; [by exists name'|].
        intros j name'' Hj Hl'. apply (Hlast j name''); [done|].
        by apply lookup_app_l_Some.
Qed.





(** ** Loops over collected elements *)

Lemma node_forest_ind (P : node -> Prop) :
  (forall s, P (Text s)) ->
  (forall u nm a kids, Forall P kids -> P (Elem u nm a kids)) ->
  (forall c s, P (Special c s)) ->
  forall n, P n.
Proof.
  intros HT HE HS. fix IH 1. intros [s|u nm a kids|c s]; [apply HT| |apply HS].
  apply HE. induction kids as [|k kids IHk]; constructor; [apply IH|exact IHk].
Qed.

Lemma node_elems_is_elem k n :
  In n (node_elems k) -> exists u nm a kids, n = Elem u nm a kids.
Proof.
  induction k as [s|u nm a kids IH|c s] using node_forest_ind; [done| |done].
  cbn [node_elems]. intros [<-|H]; [by eauto|].
  apply in_flat_map in H as (k & Hk & H).
  rewrite Forall_forall in IH. apply (IH k); [by apply list_elem_of_In|done].
Qed.

Lemma elems_of_is_elem f n :
  n ∈ elems_of f -> exists u nm a kids, n = Elem u nm a kids.
Proof.
  intros H. apply list_elem_of_In, in_flat_map in H as (k & _ & H).
  by eapply node_elems_is_elem.
Qed.

Lemma elems_of_app f1 f2 : elems_of (f1 ++ f2) = elems_of f1 ++ elems_of f2.
Proof. unfold elems_of. apply flat_map_app. Qed.

Lemma uids_app f1 f2 : uids (f1 ++ f2) = uids f1 ++ uids f2.
Proof. unfold uids. by rewrite elems_of_app, map_app. Qed.

Lemma uids_cons n f : uids (n :: f) = uids [n] ++ uids f.
Proof. apply (uids_app [n] f). Qed.

Lemma uids_elem u nm a kids : uids [Elem u nm a kids] = u :: uids kids.
Proof. unfold uids, elems_of. simpl. by rewrite app_nil_r. Qed.

Lemma uids_text s : uids [Text s] = [].
Proof. done. Qed.

Lemma rewrite_at_app u h f1 f2 :
  rewrite_at u h (f1 ++ f2) = rewrite_at u h f1 ++ rewrite_at u h f2.
Proof. unfold rewrite_at. apply flat_map_app. Qed.

Lemma rewrite_at_cons u h n f :
  rewrite_at u h (n :: f) = rewrite_node u h n ++ rewrite_at u h f.
Proof. done. Qed.

Lemma rewrite_at_miss u h f : u ∉ uids f -> rewrite_at u h f = f.
Proof.
  induction f as [|n f IHf]; [done|].
  rewrite uids_cons, rewrite_at_cons, not_elem_of_app. intros [Hn Hf].
  rewrite IHf by done. clear IHf Hf. change (n :: f) with ([n] ++ f). f_equal.
  induction n as [s|v nm a kids IH|c s] using node_forest_ind; [done| |done].
  rewrite uids_elem, not_elem_of_cons in Hn. destruct Hn as [Hv Hk].
  simpl. destruct (Nat.eqb_spec v u) as [->|_]; [done|]. do 2 f_equal.
  induction IH as [|k kids Hk1 _ IHk]; [done|].
  rewrite uids_cons, not_elem_of_app in Hk. destruct Hk as [Hk2 Hk3].
  simpl. by rewrite Hk1, IHk.
Qed.

Lemma for_uids_app us h f1 f2 :
  for_uids us h (f1 ++ f2) = for_uids us h f1 ++ for_uids us h f2.
Proof.
  revert f1 f2. induction us as [|u us IH]; intros f1 f2; [done|].
  unfold for_uids in *. simpl. by rewrite rewrite_at_app, IH.
Qed.

Lemma for_uids_cons u us h f :
  for_uids (u :: us) h f = for_uids us h (rewrite_at u h f).
Proof. done. Qed.

Lemma for_uids_targets_app us1 us2 h f :
  for_uids (us1 ++ us2) h f = for_uids us2 h (for_uids us1 h f).
Proof. unfold for_uids. apply fold_left_app. Qed.

Lemma for_uids_miss us h f :
  (forall u, u ∈ us -> u ∉ uids f) -> for_uids us h f = f.
Proof.
  induction us as [|u us IH]; intros H; [done|].
  unfold for_uids in *. simpl. rewrite rewrite_at_miss.
  - apply IH. intros v Hv. apply H. by right.
  - apply H. by left.
Qed.

Lemma for_uids_elem us h u nm a kids :
  u ∉ us ->
  for_uids us h [Elem u nm a kids] = [Elem u nm a (for_uids us h kids)].
Proof.
  revert kids. induction us as [|v us IH]; intros kids H; [done|].
  apply not_elem_of_cons in H as [Hv Hus].
  unfold for_uids in *. cbn [fold_left].
  assert (rewrite_at v h [Elem u nm a kids]
          = [Elem u nm a (rewrite_at v h kids)]) as ->.
  { unfold rewrite_at. cbn [flat_map rewrite_node].
    destruct (Nat.eqb_spec u v) as [->|_]; [done|]. apply app_nil_r. }
  by rewrite IH.
Qed.

Section forest_loop.
Variable h : node -> forest.
Variable targets : forest -> list nat.
Variable result : node -> forest.
Hypothesis targets_cons :
  forall n f, targets (n :: f) = targets [n] ++ targets f.
Hypothesis targets_nil : targets [] = [].
Hypothesis targets_uids : forall f u, u ∈ targets f -> u ∈ uids f.
Hypothesis result_uids : forall n u, u ∈ uids (result n) -> u ∈ uids [n].

(** When the loop does to every single node what [result] says, it
    does so to a list of nodes with distinct identities. *)
Lemma for_uids_forest f :
  Forall (fun n => NoDup (uids [n]) ->
                   for_uids (targets [n]) h [n] = result n) f ->
  NoDup (uids f) ->
  for_uids (targets f) h f = flat_map result f.
Proof.
  induction 1 as [|n f Hn _ IH]; intros Hnd.
  - by rewrite targets_nil.
  - rewrite uids_cons in Hnd. apply NoDup_app in Hnd as (Hn1 & Hdisj & Hf).
    rewrite targets_cons, for_uids_targets_app.
    change (n :: f) with ([n] ++ f). rewrite for_uids_app.
    rewrite Hn by done.
    rewrite (for_uids_miss (targets [n]) h f).
    2:{ intros u Hu. apply Hdisj. by apply targets_uids. }
    rewrite for_uids_app, IH by done.
    rewrite for_uids_miss; [done|].
    intros u Hu Hr. apply result_uids in Hr.
    apply targets_uids in Hu. by apply (Hdisj u).
Qed.
End forest_loop.

(** *** Unwrapping *)

Lemma uids_flat_map_splice f u :
  u ∈ uids (flat_map splice f) -> u ∈ uids f.
Proof.
  induction f as [|n f IHf]; [done|].
  cbn [flat_map]. rewrite uids_app, uids_cons, !elem_of_app.
  intros [H|H]; [left|right; by apply IHf]. clear IHf.
  revert H.
  induction n as [s|v nm a kids IH|c s] using node_forest_ind; [done| |done].
  assert (u ∈ uids (flat_map splice kids) -> u ∈ uids kids) as Hk.
  { clear -IH. induction IH as [|k kids Hk _ IHk]; [done|].
    cbn [flat_map]. rewrite uids_app, uids_cons, !elem_of_app. tauto. }
  cbn [splice]. rewrite uids_elem. destruct (allowed nm).
  - rewrite uids_elem, !elem_of_cons. tauto.
  - rewrite elem_of_cons. tauto.
Qed.

Lemma splice_uids n u : u ∈ uids (splice n) -> u ∈ uids [n].
Proof.
  intros H. apply uids_flat_map_splice. cbn [flat_map]. by rewrite app_nil_r.
Qed.

Lemma stage_unwrap_splice f :
  NoDup (uids f) -> stage_unwrap f = flat_map splice f.
Proof.
  unfold stage_unwrap, for_each. fold (uids f).
  apply (for_uids_forest unwrap_disallowed uids splice);
    [apply uids_cons|done|done|apply splice_uids|].
  induction f as [|n f IHf]; constructor; [|done]. clear IHf.
  induction n as [s|u nm a kids IH|c s] using node_forest_ind; [done| |done].
  rewrite uids_elem. intros Hnd. apply NoDup_cons in Hnd as [Hu Hk].
  rewrite for_uids_cons.
  assert (rewrite_at u unwrap_disallowed [Elem u nm a kids]
          = unwrap_disallowed (Elem u nm a kids)) as ->.
  { unfold rewrite_at. cbn [flat_map rewrite_node].
    rewrite Nat.eqb_refl. apply app_nil_r. }
  assert (for_uids (uids kids) unwrap_disallowed kids = flat_map splice kids)
    as Hkids.
  { apply (for_uids_forest unwrap_disallowed uids splice);
      [apply uids_cons|done|done|apply splice_uids|done|done]. }
  assert (unwrap_disallowed (Elem u nm a kids)
          = if allowed nm then [Elem u nm a kids] else kids) as -> by done.
  cbn [splice]. destruct (allowed nm); [|done].
  rewrite for_uids_elem by done. by rewrite Hkids.
Qed.

(** *** Changing heads *)

Lemma selected_cons sel n f :
  selected sel (n :: f) = selected sel [n] ++ selected sel f.
Proof.
  unfold selected. change (n :: f) with ([n] ++ f).
  by rewrite elems_of_app, List.filter_app, map_app.
Qed.

Lemma selected_elem sel u nm a kids :
  selected sel [Elem u nm a kids]
  = (if sel nm then [u] else []) ++ selected sel kids.
Proof.
  unfold selected, elems_of. cbn [flat_map node_elems]. rewrite app_nil_r.
  cbn [List.filter node_name]. by destruct (sel nm).
Qed.

Lemma selected_uids sel f u : u ∈ selected sel f -> u ∈ uids f.
Proof.
  unfold selected, uids. rewrite !list_elem_of_fmap.
  intros (n & -> & Hn). exists n. split; [done|].
  apply list_elem_of_In. apply list_elem_of_In, filter_In in Hn. tauto.
Qed.

Lemma selected_all f : selected (fun _ => true) f = uids f.
Proof.
  unfold selected, uids. f_equal. apply filter_all, Forall_forall. done.
Qed.

Lemma uids_map_where sel g f : uids (map (map_where sel g) f) = uids f.
Proof.
  induction f as [|n f IHf]; [done|].
  cbn [map]. rewrite uids_cons, (uids_cons n f), IHf. f_equal. clear IHf.
  induction n as [s|u nm a kids IH|c s] using node_forest_ind; [done| |done].
  assert (uids (map (map_where sel g) kids) = uids kids) as Hk.
  { induction IH as [|k kids Hk _ IHk]; [done|].
    cbn [map]. by rewrite uids_cons, (uids_cons k kids), Hk, IHk. }
  cbn [map_where]. destruct (sel nm); [destruct (g nm a)|];
    by rewrite !uids_elem, Hk.
Qed.

Lemma flat_map_singleton {A B} (r : A -> B) l :
  flat_map (fun x => [r x]) l = map r l.
Proof. induction l; simpl; by f_equal. Qed.

Lemma for_uids_map_where sel g f :
  NoDup (uids f) ->
  for_uids (selected sel f) (apply_head g) f = map (map_where sel g) f.
Proof.
  rewrite <- flat_map_singleton.
  apply (for_uids_forest (apply_head g) (selected sel)
           (fun n => [map_where sel g n]));
    [apply selected_cons|done|apply selected_uids| |].
  { intros n u. change [map_where sel g n] with (map (map_where sel g) [n]).
    by rewrite uids_map_where. }
  induction f as [|n f IHf]; constructor; [|done]. clear IHf.
  induction n as [s|u nm a kids IH|c s] using node_forest_ind; [done| |done].
  rewrite uids_elem, selected_elem. intros Hnd.
  apply NoDup_cons in Hnd as [Hu Hk].
  assert (u ∉ selected sel kids) as Hu'.
  { intros H. by apply Hu, (selected_uids sel). }
  assert (for_uids (selected sel kids) (apply_head g) kids
          = map (map_where sel g) kids) as Hkids.
  { rewrite <- flat_map_singleton.
    apply (for_uids_forest (apply_head g) (selected sel)
             (fun n => [map_where sel g n]));
      [apply selected_cons|done|apply selected_uids| |done|done].
    intros n u0. change [map_where sel g n] with (map (map_where sel g) [n]).
    by rewrite uids_map_where. }
  cbn [map_where]. destruct (sel nm).
  - cbn [app]. rewrite for_uids_cons.
    assert (rewrite_at u (apply_head g) [Elem u nm a kids]
            = apply_head g (Elem u nm a kids)) as ->.
    { unfold rewrite_at. cbn [flat_map rewrite_node].
      rewrite Nat.eqb_refl. apply app_nil_r. }
    cbn [apply_head]. destruct (g nm a) as [nm' a'].
    rewrite for_uids_elem by done. by rewrite Hkids.
  - cbn [app]. rewrite for_uids_elem by done. by rewrite Hkids.
Qed.

Lemma uids_splice_sublist f : uids (flat_map splice f) `sublist_of` uids f.
Proof.
  induction f as [|n f IHf]; [done|].
  cbn [flat_map]. rewrite uids_app, uids_cons.
  apply sublist_app; [|done]. clear IHf.
  induction n as [s|v nm a kids IH|c s] using node_forest_ind; [done| |done].
  assert (uids (flat_map splice kids) `sublist_of` uids kids) as Hk.
  { clear -IH. induction IH as [|k kids Hk _ IHk]; [done|].
    cbn [flat_map]. rewrite uids_app, uids_cons. by apply sublist_app. }
  cbn [splice]. rewrite uids_elem. destruct (allowed nm).
  - rewrite uids_elem. by apply sublist_skip.
  - by apply sublist_cons.
Qed.

Lemma NoDup_uids_splice f :
  NoDup (uids f) -> NoDup (uids (flat_map splice f)).
Proof. intros H. eapply sublist_NoDup; [done|apply uids_splice_sublist]. Qed.

Lemma find_all_selected name f :
  map node_uid (find_all name f) = selected (fun nm => str_eqb nm name) f.
Proof. done. Qed.

Lemma sanitize_tree_structural cell :
  NoDup (uids cell) -> sanitize_tree cell = sanitize_tree_rec cell.
Proof.
  intros H. unfold sanitize_tree, sanitize_tree_rec.
  unfold stage_marks, stage_spans, stage_links, stage_background, for_each,
    mark_to_span, with_attrs.
  rewrite (find_all_selected (lit "mark")), for_uids_map_where by done.
  set (f1 := map _ cell).
  assert (NoDup (uids f1)) as H1 by (unfold f1; by rewrite uids_map_where).
  rewrite (find_all_selected (lit "span")), for_uids_map_where by done.
  set (f2 := map _ f1).
  assert (NoDup (uids f2)) as H2 by (unfold f2; by rewrite uids_map_where).
  rewrite (find_all_selected (lit "a")), for_uids_map_where by done.
  set (f3 := map _ f2).
  assert (NoDup (uids f3)) as H3 by (unfold f3; by rewrite uids_map_where).
  rewrite stage_unwrap_splice by done.
  set (f4 := flat_map splice f3).
  assert (NoDup (uids f4)) as H4 by (by apply NoDup_uids_splice).
  fold (uids f4). rewrite <- (selected_all f4).
  by rewrite for_uids_map_where.
Qed.

(** ** The inline sanitizer *)

Example sanitize_heading :
  sanitize_inline_html text_parser
    [Elem 1 (lit "h1") [(lit "class", AList [lit "title"])]
       [Text (lit "Hello "); Elem 2 (lit "b") [] [Text (lit "world")]]]
    false
  = lit "Hello <b>world</b>".
Proof. vm_compute. reflexivity. Qed.

Example sanitize_link :
  sanitize_inline_html text_parser
    [Elem 1 (lit "a")
       [(lit "class", AList [lit "x"]); (lit "href", AStr (lit "https://x"));
        (lit "style", AStr (lit "color:red"))]
       [Text (lit "t")]]
    false
  = lit "<a href=" ++ [dquote] ++ lit "https://x" ++ [dquote] ++ lit ">t</a>".
Proof. vm_compute. reflexivity. Qed.

Example sanitize_fence :
  sanitize_inline_html text_parser
    [Text (lit "see ```print(1)``` ok"); Elem 1 (lit "br") [] [];
     Text (lit "next")]
    false
  = lit "see " ++ FENCE_DIV_OPEN ++ lit "print(1)</div> ok<br/>next".
Proof. vm_compute. reflexivity. Qed.

(** *** The elements of a rewritten tree *)

Lemma elems_of_cons n f : elems_of (n :: f) = node_elems n ++ elems_of f.
Proof. done. Qed.

Lemma elems_of_map_where sel g f :
  elems_of (map (map_where sel g) f) = map (map_where sel g) (elems_of f).
Proof.
  induction f as [|n f IHf]; [done|].
  cbn [map]. rewrite !elems_of_cons, map_app, IHf. f_equal. clear IHf.
  induction n as [s|u nm a kids IH|c s] using node_forest_ind; [done| |done].
  assert (elems_of (map (map_where sel g) kids)
          = map (map_where sel g) (elems_of kids)) as Hk.
  { induction IH as [|k kids Hk _ IHk]; [done|].
    cbn [map]. by rewrite !elems_of_cons, map_app, Hk, IHk. }
  cbn [node_elems map]. fold (elems_of kids). rewrite <- Hk.
  cbn [map_where]. destruct (sel nm); [destruct (g nm a)|]; done.
Qed.

Lemma elems_of_splice f :
  elems_of (flat_map splice f)
  = map splice_elem
      (List.filter (fun n => allowed (node_name n)) (elems_of f)).
Proof.
  induction f as [|n f IHf]; [done|].
  cbn [flat_map]. rewrite elems_of_app, elems_of_cons, List.filter_app,
    map_app, IHf. f_equal. clear IHf.
  induction n as [s|u nm a kids IH|c s] using node_forest_ind; [done| |done].
  assert (elems_of (flat_map splice kids)
          = map splice_elem
              (List.filter (fun n => allowed (node_name n)) (elems_of kids)))
    as Hk.
  { induction IH as [|k kids Hk _ IHk]; [done|].
    cbn [flat_map]. by rewrite elems_of_app, elems_of_cons, List.filter_app,
      map_app, Hk, IHk. }
  cbn [node_elems List.filter node_name splice]. fold (elems_of kids).
  destruct (allowed nm).
  - unfold elems_of at 1. cbn [flat_map node_elems map splice_elem].
    fold (elems_of (flat_map splice kids)). by rewrite app_nil_r, Hk.
  - done.
Qed.

Lemma strings_of_splice f : strings_of (flat_map splice f) = strings_of f.
Proof.
  induction f as [|n f IHf]; [done|].
  cbn [flat_map]. unfold strings_of in *. rewrite flat_map_app. cbn [flat_map].
  rewrite IHf. f_equal. clear IHf.
  induction n as [s|u nm a kids IH|c s] using node_forest_ind; [done| |done].
  assert (flat_map node_strings (flat_map splice kids)
          = flat_map node_strings kids) as Hk.
  { induction IH as [|k kids Hk _ IHk]; [done|].
    cbn [flat_map]. by rewrite flat_map_app, Hk, IHk. }
  cbn [splice node_strings]. destruct (allowed nm); [|done].
  cbn [flat_map node_strings]. by rewrite app_nil_r.
Qed.

Lemma map_where_name sel g n :
  (forall nm a, (g nm a).1 = nm) ->
  node_name (map_where sel g n) = node_name n.
Proof.
  intros Hg. destruct n as [s|u nm a kids|c s]; [done| |done].
  cbn [map_where]. destruct (sel nm); [|done].
  specialize (Hg nm a). by destruct (g nm a).
Qed.


Lemma splice_elem_head n :
  node_name (splice_elem n) = node_name n
  /\ node_uid (splice_elem n) = node_uid n
  /\ node_attrs (splice_elem n) = node_attrs n.
Proof. by destruct n. Qed.

Lemma splice_all_allowed f :
  Forall (fun n => allowed (node_name n) = true) (elems_of (flat_map splice f)).
Proof.
  rewrite elems_of_splice. apply Forall_forall. intros n Hn.
  apply list_elem_of_fmap in Hn as (n0 & -> & Hn0).
  apply list_elem_of_In, filter_In in Hn0 as [_ Hn0].
  by rewrite (proj1 (splice_elem_head n0)).
Qed.

Lemma sanitize_tree_rec_allowed cell :
  Forall (fun n => allowed (node_name n) = true)
         (elems_of (sanitize_tree_rec cell)).
Proof.
  unfold sanitize_tree_rec. rewrite elems_of_map_where.
  apply Forall_forall. intros n Hn.
  apply list_elem_of_fmap in Hn as (n0 & -> & Hn0).
  rewrite map_where_name by done.
  revert n0 Hn0. apply Forall_forall, splice_all_allowed.
Qed.

(** C6. The loop over the collected elements unwraps every element
    whose tag is not allowed at that point of the run: its children come
    in its place (themselves treated the same way), the element and its
    attributes are gone; allowed elements stay where they are, with their
    attributes.  So only allowed tags are left after the loop and in the
    sanitized cell, and the text is the same, in the same order.  A
    heading around inline text gives the inner text and markup, without
    the heading and without its attributes. *)
Theorem unwrap_disallowed_spec (f : forest) :
  NoDup (uids f) ->
  stage_unwrap f = flat_map splice f
  /\ (forall pre u nm a kids post,
        f = pre ++ Elem u nm a kids :: post ->
        stage_unwrap f
        = stage_unwrap pre
          ++ (if allowed nm then [Elem u nm a (stage_unwrap kids)]
              else stage_unwrap kids)
          ++ stage_unwrap post)
  /\ Forall (fun n => allowed (node_name n) = true)
            (elems_of (stage_unwrap f))
  /\ strings_of (stage_unwrap f) = strings_of f
  /\ Forall (fun n => allowed (node_name n) = true)
            (elems_of (sanitize_tree f))
  /\ (forall html_parser,
        sanitize_inline_html html_parser
          [Elem 1 (lit "h1") [(lit "class", AList [lit "title"])]
             [Text (lit "Hello ");
              Elem 2 (lit "b") [] [Text (lit "world")]]]
          false
        = lit "Hello <b>world</b>").
Proof.
  intros Hwf. split; [by apply stage_unwrap_splice|]. split.
  { intros pre u nm a kids post ->.
    pose proof Hwf as Hparts.
    rewrite uids_app, uids_cons, uids_elem in Hparts.
    apply NoDup_app in Hparts as (Hpre & _ & Hrest).
    apply NoDup_app in Hrest as (Helem & _ & Hpost).
    apply NoDup_cons in Helem as [_ Hkids].
    rewrite (stage_unwrap_splice (pre ++ _)) by done.
    rewrite (stage_unwrap_splice pre), (stage_unwrap_splice kids),
      (stage_unwrap_splice post) by done.
    rewrite flat_map_app. cbn [flat_map splice].
    by destruct (allowed nm). }
  rewrite stage_unwrap_splice by done.
  split; [apply splice_all_allowed|].
  split; [apply strings_of_splice|].
  split; [|intros; by vm_compute].
  rewrite sanitize_tree_structural by done. apply sanitize_tree_rec_allowed.
Qed.

Lemma unwrap_disallowed_spec_witness :
  let f := [Elem 1 (lit "h1") [(lit "class", AList [lit "title"])]
              [Text (lit "Hello ");
               Elem 2 (lit "font") [] [Elem 3 (lit "b") [] [Text (lit "world")]]];
            Text (lit "!")] in
  NoDup (uids f)
  /\ stage_unwrap f
     = [Text (lit "Hello "); Elem 3 (lit "b") [] [Text (lit "world")];
        Text (lit "!")].
Proof.
  intros f. assert (NoDup (uids f)) as H by distinct_uids.
  split; [exact H|].
  rewrite (proj1 (unwrap_disallowed_spec f H)). reflexivity.
Defined.

(** *** Links *)

Lemma strip_background_keep_href a :
  strip_background_attrs (keep_href a) = keep_href a.
Proof.
  unfold keep_href. destruct (attr_get (lit "href") a) as [v|]; [|done].
  by destruct (truthy v).
Qed.

Lemma sanitize_tree_rec_elems cell n' :
  n' ∈ elems_of (sanitize_tree_rec cell) ->
  exists n0, n0 ∈ elems_of cell /\
    n' = map_where (fun _ => true) (fun nm a => (nm, strip_background_attrs a))
           (splice_elem
              (map_where (fun nm => str_eqb nm (lit "a"))
                         (fun nm a => (nm, keep_href a))
                 (map_where (fun nm => str_eqb nm (lit "span"))
                            (fun nm a => (nm, convert_color_classes_to_inline a))
                    (map_where (fun nm => str_eqb nm (lit "mark"))
                               (fun _ a => (lit "span",
                                            convert_color_classes_to_inline a))
                       n0)))).
Proof.
  unfold sanitize_tree_rec.
  rewrite elems_of_map_where, elems_of_splice, !elems_of_map_where.
  intros H. apply list_elem_of_fmap in H as (n4 & -> & H).
  apply list_elem_of_fmap in H as (n3 & -> & H).
  apply list_elem_of_In, filter_In in H as [H _]. apply list_elem_of_In in H.
  apply list_elem_of_fmap in H as (n2 & -> & H).
  apply list_elem_of_fmap in H as (n1 & -> & H).
  apply list_elem_of_fmap in H as (n0 & -> & H).
  by exists n0.
Qed.

Lemma sanitize_tree_rec_links cell n' :
  n' ∈ elems_of (sanitize_tree_rec cell) ->
  node_name n' = lit "a" ->
  exists n0, n0 ∈ elems_of cell /\ node_uid n0 = node_uid n' /\
             node_name n0 = lit "a" /\
             node_attrs n' = keep_href (node_attrs n0).
Proof.
  intros H Hname. apply sanitize_tree_rec_elems in H as (n0 & Hn0 & ->).
  exists n0. split; [done|].
  destruct n0 as [s|u nm a kids|c s];
    [by vm_compute in Hname| |by vm_compute in Hname].
  revert Hname. cbn [map_where]. unfold str_eqb.
  case_bool_decide as Hmark.
  { cbn [map_where]. rewrite bool_decide_eq_true_2 by done.
    cbn [map_where splice_elem]. rewrite bool_decide_eq_false_2 by done.
    cbn [map_where splice_elem node_name]. intros E. by vm_compute in E. }
  cbn [map_where]. case_bool_decide as Hspan.
  { subst nm. cbn [map_where]. rewrite bool_decide_eq_false_2 by done.
    cbn [map_where splice_elem node_name]. intros E. by vm_compute in E. }
  cbn [map_where]. case_bool_decide as Ha.
  - subst nm. cbn [map_where splice_elem node_name node_uid node_attrs].
    intros _. by rewrite strip_background_keep_href.
  - cbn [map_where splice_elem node_name]. done.
Qed.

(** C7, as amended. In the sanitized cell every link element has, of the
    attributes it had, only [href] left, and that only when the value of
    [href] is not empty; a link without [href], or with an empty one, is
    left as a plain link tag without attributes.  The link of the example
    keeps [href] and loses [class] and [style]. *)
Theorem links_keep_nonempty_href (cell : forest) :
  NoDup (uids cell) ->
  (forall n', n' ∈ elems_of (sanitize_tree cell) ->
     node_name n' = lit "a" ->
     exists n0, n0 ∈ elems_of cell /\ node_uid n0 = node_uid n' /\
       node_name n0 = lit "a" /\
       node_attrs n'
       = match attr_get (lit "href") (node_attrs n0) with
         | Some href => if truthy href then [(lit "href", href)] else []
         | None => []
         end)
  /\ (forall html_parser,
        sanitize_inline_html html_parser
          [Elem 1 (lit "a")
             [(lit "class", AList [lit "x"]);
              (lit "href", AStr (lit "https://x"));
              (lit "style", AStr (lit "color:red"))]
             [Text (lit "t")]]
          false
        = lit "<a href=" ++ [dquote] ++ lit "https://x" ++ [dquote]
          ++ lit ">t</a>")
  /\ (forall html_parser,
        sanitize_inline_html html_parser
          [Elem 1 (lit "a") [(lit "class", AList [lit "x"])] [Text (lit "t")]]
          false
        = lit "<a>t</a>").
Proof.
  intros Hwf. split; [|split; intros; by vm_compute].
  intros n' Hn' Hname. rewrite sanitize_tree_structural in Hn' by done.
  by apply sanitize_tree_rec_links.
Qed.

Lemma links_keep_nonempty_href_witness :
  let cell := [Text (lit "see ");
               Elem 1 (lit "a")
                 [(lit "href", AStr (lit "https://x"));
                  (lit "class", AList [lit "x"])]
                 [Elem 2 (lit "mark") [] [Text (lit "t")]]] in
  NoDup (uids cell)
  /\ forall n', n' ∈ elems_of (sanitize_tree cell) ->
       node_name n' = lit "a" ->
       exists n0, n0 ∈ elems_of cell /\ node_uid n0 = node_uid n' /\
         node_name n0 = lit "a" /\
         node_attrs n'
         = match attr_get (lit "href") (node_attrs n0) with
           | Some href => if truthy href then [(lit "href", href)] else []
           | None => []
           end.
Proof.
  intros cell. assert (NoDup (uids cell)) as H by distinct_uids.
  split; [exact H|]. exact (proj1 (links_keep_nonempty_href cell H)).
Defined.

(** C7, as stated, fails: a link whose [href] is empty loses [href]
    too, so what is left is not the link's attributes without all but
    [href]. *)
Lemma link_empty_href_dropped :
  let cell := [Elem 1 (lit "a")
                 [(lit "href", AStr []); (lit "class", AList [lit "x"])]
                 [Text (lit "t")]] in
  sanitize_tree cell = [Elem 1 (lit "a") [] [Text (lit "t")]]
  /\ ~ (forall n', n' ∈ elems_of (sanitize_tree cell) ->
          node_name n' = lit "a" ->
          exists n0, n0 ∈ elems_of cell /\ node_uid n0 = node_uid n' /\
            node_attrs n'
            = List.filter (fun kv => str_eqb kv.1 (lit "href"))
                          (node_attrs n0)).
Proof.
  intros cell. split; [by vm_compute|].
  intros H.
  destruct (H (Elem 1 (lit "a") [] [Text (lit "t")])) as (n0 & Hn0 & _ & Ha).
  - assert (sanitize_tree cell = [Elem 1 (lit "a") [] [Text (lit "t")]]) as ->
      by (by vm_compute).
    unfold elems_of. cbn [flat_map node_elems]. by left.
  - done.
  - unfold cell, elems_of in Hn0. cbn [flat_map node_elems app] in Hn0.
    apply list_elem_of_singleton in Hn0 as ->.
    by vm_compute in Ha.
Qed.

(** ** Fences *)

Lemma strip_prefix_Some p s r : strip_prefix p s = Some r -> s = p ++ r.
Proof.
  revert s. induction p as [|c p IH]; intros s; simpl.
  - by intros [= ->].
  - destruct s as [|d s]; [done|].
    destruct (N.eqb_spec c d) as [->|]; [|done].
    intros H. by rewrite (IH _ H).
Qed.






Lemma sub_fences_none repl s :
  find_sub FENCE s = None -> sub_fences repl s = s.
Proof.
  intros F. unfold sub_fences. destruct (length s); [done|].
  cbn [sub_fences_fuel]. by rewrite F.
Qed.

Lemma sub_fences_open repl s before rest :
  find_sub FENCE s = Some (before, rest) ->
  find_sub FENCE rest = None -> sub_fences repl s = s.
Proof.
  intros F1 F2. unfold sub_fences. destruct (length s); [done|].
  cbn [sub_fences_fuel]. by rewrite F1, F2.
Qed.

(** Replacing one character works character by character. *)
Lemma replace_char c new s :
  replace [c] new s
  = flat_map (fun d => if N.eqb c d then new else [d]) s.
Proof.
  unfold replace. induction s as [|d s IH]; [done|].
  cbn [replace_from flat_map]. unfold startswith. cbn [strip_prefix].
  destruct (N.eqb c d); cbn [length Nat.sub]; by rewrite IH.
Qed.


(** *** Style declarations *)

Lemma split_char_pieces c s :
  Forall (Forall (fun d => d <> c)) (split_char c s).
Proof.
  induction s as [|d s IH]; simpl; [by repeat constructor|].
  destruct (N.eqb_spec d c) as [->|Hd]; [by constructor|].
  destruct (split_char c s) as [|piece pieces]; [by repeat constructor|].
  inversion IH; subst. constructor; [by constructor|done].
Qed.

Lemma split_char_free c p :
  Forall (fun d => d <> c) p -> split_char c p = [p].
Proof.
  induction 1 as [|d p Hd _ IH]; simpl; [done|].
  destruct (N.eqb_spec d c) as [->|_]; [done|]. by rewrite IH.
Qed.

Lemma split_char_app c p rest :
  Forall (fun d => d <> c) p ->
  split_char c (p ++ c :: rest) = p :: split_char c rest.
Proof.
  induction 1 as [|d p Hd _ IH]; simpl.
  - by rewrite N.eqb_refl.
  - destruct (N.eqb_spec d c) as [->|_]; [done|]. by rewrite IH.
Qed.

Lemma split_char_join c l :
  l <> [] -> Forall (Forall (fun d => d <> c)) l ->
  split_char c (join [c] l) = l.
Proof.
  intros Hne H. induction H as [|p l Hp Hl IH]; [done|].
  destruct l as [|q l].
  - cbn [join]. by apply split_char_free.
  - change (join [c] (p :: q :: l)) with (p ++ c :: join [c] (q :: l)).
    rewrite split_char_app by done. by rewrite IH.
Qed.

Lemma filter_comm {A} (f g : A -> bool) l :
  List.filter f (List.filter g l) = List.filter g (List.filter f l).
Proof.
  rewrite !filter_filter. apply filter_ext. intros x. apply andb_comm.
Qed.

Lemma filter_Forall_keep {A} (P : A -> Prop) (f : A -> bool) l :
  Forall P l -> Forall P (List.filter f l).
Proof.
  induction 1 as [|x l Hx _ IH]; simpl; [constructor|].
  destruct (f x); [by constructor|done].
Qed.

Lemma decls_strip_background style :
  decls (strip_background style)
  = List.filter (fun d => negb (is_background d)) (decls style).
Proof.
  unfold strip_background, decls.
  set (pieces := split_char semicolon style).
  set (nonblank := fun s => nonempty (strip s)).
  set (notbg := fun s => negb (is_background s)).
  rewrite (filter_comm notbg nonblank).
  destruct (List.filter nonblank (List.filter notbg pieces)) as [|p l] eqn:E.
  - done.
  - rewrite <- E. change (lit ";") with [semicolon].
    rewrite split_char_join.
    + rewrite filter_all; [done|]. apply filter_Forall.
    + by rewrite E.
    + do 2 apply filter_Forall_keep. apply split_char_pieces.
Qed.




(** ** The run *)

Example convert_example :
  convert_file (fun _ =>
      table_of 1 [th 10 "Front"; th 11 "Back"; th 12 "Notion-ID"; th 13 "My Tags"]
        [Elem 20 (lit "tr") []
           [td 21 [Text (lit "What?")];
            td 22 [Elem 23 (lit "h1") [] [Text (lit "An answer, here")]];
            td 24 [Text (lit "abc1")];
            td 25 [Text (lit "x, y z")]]])
    no_wide_case [] None
  = (inr tt,
     Some (HEADER_LINE
           ++ lit "abc1,What?," ++ [dquote] ++ lit "An answer, here" ++ [dquote]
           ++ lit ",x y-z" ++ CRLF)).
Proof. vm_compute. reflexivity. Qed.

(** *** Finding elements again *)

Lemma head_filter_unique {A} (g : A -> nat) (l : list A) (x : A) :
  NoDup (map g l) -> x ∈ l ->
  head (List.filter (fun y => g y =? g x) l) = Some x.
Proof.
  induction l as [|y l IH]; intros Hnd Hx; [by apply elem_of_nil in Hx|].
  cbn [map] in Hnd. apply NoDup_cons in Hnd as [Hy Hl].
  cbn [List.filter]. apply elem_of_cons in Hx as [->|Hx].
  - by rewrite Nat.eqb_refl.
  - destruct (Nat.eqb_spec (g y) (g x)) as [E|_]; [|by apply IH].
    exfalso. apply Hy. rewrite E. by apply list_elem_of_fmap_2.
Qed.

Lemma store_find_elem f n :
  NoDup (uids f) -> n ∈ elems_of f -> store_find (node_uid n) f = Some n.
Proof. intros. unfold store_find. by apply head_filter_unique. Qed.

Lemma store_kids_elem f n :
  NoDup (uids f) -> n ∈ elems_of f -> store_kids f (node_uid n) = node_kids n.
Proof. intros. unfold store_kids. by rewrite store_find_elem. Qed.

Lemma node_elems_kids n m :
  m ∈ elems_of (node_kids n) -> m ∈ node_elems n.
Proof.
  destruct n as [s|u nm a kids|c s]; [done| |done].
  cbn [node_kids node_elems]. intros H. by right.
Qed.

Lemma elems_of_descend f n m :
  n ∈ elems_of f -> m ∈ elems_of (node_kids n) -> m ∈ elems_of f.
Proof.
  intros Hn Hm. induction f as [|k f IHf]; [by apply elem_of_nil in Hn|].
  rewrite elems_of_cons, elem_of_app in Hn |- *.
  destruct Hn as [Hn|Hn]; [left|right; by apply IHf]. clear IHf.
  induction k as [s|u nm a kids IH|c s] using node_forest_ind;
    [by apply elem_of_nil in Hn| |by apply elem_of_nil in Hn].
  cbn [node_elems] in Hn |- *. apply elem_of_cons in Hn as [->|Hn].
  - by apply (node_elems_kids (Elem u nm a kids)).
  - right. fold (elems_of kids) in Hn |- *.
    clear -IH Hn. induction IH as [|k kids Hk _ IHk];
      [by apply elem_of_nil in Hn|].
    rewrite elems_of_cons, elem_of_app in Hn |- *.
    destruct Hn as [Hn|Hn]; [left; by apply Hk|right; by apply IHk].
Qed.

Lemma find_all_elem name f n : n ∈ find_all name f -> n ∈ elems_of f.
Proof.
  unfold find_all. intros H.
  apply list_elem_of_In, filter_In in H as [H _]. by apply list_elem_of_In.
Qed.

Lemma find_elem name f n : find name f = Some n -> n ∈ elems_of f.
Proof.
  unfold find. intros H. apply (find_all_elem name).
  destruct (find_all name f); [done|]. injection H as ->. by left.
Qed.

(** *** The loop over the rows *)

Lemma row_step_no_cells html_parser col_map store tr :
  has_cells store tr = false ->
  row_step html_parser col_map store tr = inr (None, store).
Proof.
  unfold has_cells, row_step.
  by destruct (find_all (lit "td") (store_kids store (node_uid tr))).
Qed.

Lemma rows_loop_no_cells html_parser col_map trs store rows_out :
  Forall (fun tr => has_cells store tr = false) trs ->
  rows_loop html_parser col_map trs store rows_out = inr rows_out.
Proof.
  induction 1 as [|tr trs Htr _ IH]; [done|].
  cbn [rows_loop]. by rewrite row_step_no_cells.
Qed.

Lemma rows_loop_first_error html_parser col_map pre tr post store rows_out e :
  Forall (fun tr => has_cells store tr = false) pre ->
  row_step html_parser col_map store tr = inl e ->
  rows_loop html_parser col_map (pre ++ tr :: post) store rows_out = inl e.
Proof.
  intros Hpre Hstep. induction Hpre as [|t pre Ht _ IH].
  - cbn [app rows_loop]. by rewrite Hstep.
  - cbn [app rows_loop]. by rewrite row_step_no_cells.
Qed.

Lemma first_with {A} (p : A -> bool) (l : list A) x :
  x ∈ l -> p x = true ->
  exists pre y post, l = pre ++ y :: post /\ p y = true
                     /\ Forall (fun z => p z = false) pre.
Proof.
  induction l as [|z l IH]; intros Hx Hp; [by apply elem_of_nil in Hx|].
  destruct (p z) eqn:Hz.
  - exists [], z, l. by repeat split.
  - apply elem_of_cons in Hx as [->|Hx]; [congruence|].
    destruct (IH Hx Hp) as (pre & y & post & -> & Hy & Hpre).
    exists (z :: pre), y, post. repeat split; [done|by constructor].
Qed.

(** *** Writing the file *)

Lemma encodable_app a b : encodable (a ++ b) = encodable a && encodable b.
Proof. apply forallb_app. Qed.

Lemma encodable_csv_field field : encodable (csv_field field) = encodable field.
Proof.
  unfold csv_field. destruct (needs_quotes field); [|done].
  rewrite !encodable_app. change (encodable [dquote]) with true.
  rewrite andb_true_r. cbn [andb].
  induction field as [|c field IH]; [done|].
  cbn [flat_map]. rewrite encodable_app, IH.
  destruct (N.eqb_spec c dquote) as [->|_]; [done|].
  unfold encodable. cbn [forallb]. by rewrite andb_true_r.
Qed.

Lemma encodable_csv_line fields :
  encodable (csv_line fields) = forallb encodable fields.
Proof.
  unfold csv_line. rewrite encodable_app.
  change (encodable CRLF) with true. rewrite andb_true_r.
  induction fields as [|f fields IH]; [done|].
  cbn [map forallb]. rewrite <- IH.
  destruct fields as [|g fields].
  - cbn [map join forallb encodable]. rewrite andb_true_r.
    apply encodable_csv_field.
  - change (join (lit ",") (csv_field f :: map csv_field (g :: fields)))
      with (csv_field f ++ lit ","
            ++ join (lit ",") (map csv_field (g :: fields))).
    rewrite !encodable_app, encodable_csv_field.
    by change (encodable (lit ",")) with true.
Qed.

Lemma write_rows_all rows_out : forall content,
  Forall (fun r => row_encodable r = true) rows_out ->
  write_rows rows_out (Some content)
  = (inr tt, Some (content ++ flat_map row_line rows_out)).
Proof.
  induction rows_out as [|r rows_out IH]; intros content Hrows.
  - by rewrite app_nil_r.
  - apply Forall_cons in Hrows as [Hr Hrows].
    cbn [write_rows flat_map]. unfold write.
    rewrite encodable_csv_line. unfold row_encodable in Hr. rewrite Hr.
    rewrite IH by done. by rewrite <- app_assoc.
Qed.

Lemma write_rows_stops pre r post : forall content,
  Forall (fun r => row_encodable r = true) pre ->
  row_encodable r = false ->
  write_rows (pre ++ r :: post) (Some content)
  = (inl UnicodeEncodeError, Some (content ++ flat_map row_line pre)).
Proof.
  induction pre as [|p pre IH]; intros content Hpre Hr.
  - cbn [app write_rows flat_map]. unfold write.
    rewrite encodable_csv_line. unfold row_encodable in Hr. rewrite Hr.
    by rewrite app_nil_r.
  - apply Forall_cons in Hpre as [Hp Hpre].
    cbn [app write_rows flat_map]. unfold write.
    rewrite encodable_csv_line. unfold row_encodable in Hp. rewrite Hp.
    rewrite IH by done. by rewrite <- app_assoc.
Qed.

Lemma write_csv_all rows_out out :
  Forall (fun r => row_encodable r = true) rows_out ->
  write_csv rows_out out
  = (inr tt, Some (HEADER_LINE ++ flat_map row_line rows_out)).
Proof.
  intros Hrows. unfold write_csv, open_w, write.
  change (encodable (csv_line FIELDNAMES)) with true. cbv iota.
  by rewrite write_rows_all.
Qed.

Lemma write_csv_stops pre r post out :
  Forall (fun r => row_encodable r = true) pre ->
  row_encodable r = false ->
  write_csv (pre ++ r :: post) out
  = (inl UnicodeEncodeError, Some (HEADER_LINE ++ flat_map row_line pre)).
Proof.
  intros Hpre Hr. unfold write_csv, open_w, write.
  change (encodable (csv_line FIELDNAMES)) with true. cbv iota.
  by rewrite write_rows_stops.
Qed.

Lemma first_unencodable rows_out :
  Forall (fun r => row_encodable r = true) rows_out
  \/ exists pre r post,
       rows_out = pre ++ r :: post
       /\ Forall (fun r => row_encodable r = true) pre
       /\ row_encodable r = false.
Proof.
  induction rows_out as [|r rows_out IH]; [by left|].
  destruct (row_encodable r) eqn:Hr.
  - destruct IH as [IH|(pre & r' & post & -> & Hpre & Hr')].
    + left. by constructor.
    + right. exists (r :: pre), r', post. by repeat split; [constructor|].
  - right. by exists [], r, rows_out.
Qed.

(** The rows of the body, seen from the tree as it was parsed. *)
Lemma body_rows_in_store soup table tbody tr :
  NoDup (uids soup) ->
  find (lit "table") soup = Some table ->
  find (lit "tbody") (node_kids table) = Some tbody ->
  tr ∈ find_all (lit "tr") (node_kids tbody) ->
  store_kids soup (node_uid tr) = node_kids tr.
Proof.
  intros Hwf Ht Hb Htr. apply store_kids_elem; [done|].
  apply find_elem in Ht, Hb. apply find_all_elem in Htr.
  eapply elems_of_descend; [|exact Htr].
  eapply elems_of_descend; [exact Ht|exact Hb].
Qed.

Lemma parse_table_parts unicode_lower soup table col_map :
  parse_table unicode_lower soup = inr (table, col_map) ->
  find (lit "table") soup = Some table.
Proof.
  unfold parse_table. destruct (find (lit "table") soup) as [t|]; [|done].
  destruct (find (lit "thead") (node_kids t)); [|done]. by intros [= -> _].
Qed.

(** C9. When no row of the body has a cell, the run succeeds and the
    output file holds the header line only, whatever the column map is:
    no column is looked up. *)
Theorem no_cells_header_only
  (html_parser : str -> forest) (unicode_lower : str -> nat -> str)
  (html : str) (out : file)
  (table tbody : node) (col_map : gmap string nat) :
  NoDup (uids (html_parser html)) ->
  parse_table unicode_lower (html_parser html) = inr (table, col_map) ->
  find (lit "tbody") (node_kids table) = Some tbody ->
  (forall tr, tr ∈ find_all (lit "tr") (node_kids tbody) ->
              find_all (lit "td") (node_kids tr) = []) ->
  convert_file html_parser unicode_lower html out
  = (inr tt, Some (lit "Notion-ID,Front,Back,Tags" ++ CRLF)).
Proof.
  intros Hwf Hparse Hbody Hrows.
  unfold convert_file, collect_rows. rewrite Hparse. cbn [bind_error].
  rewrite Hbody. rewrite rows_loop_no_cells; [by vm_compute|].
  apply Forall_forall. intros tr Htr. unfold has_cells.
  rewrite (body_rows_in_store _ table tbody)
    by eauto using parse_table_parts.
  by rewrite Hrows.
Qed.

Lemma no_cells_header_only_witness :
  convert_file
    (fun _ => table_of 1 [th 10 "Tags"; th 11 "Notes"]
                [Elem 20 (lit "tr") [] []; Elem 21 (lit "tr") [] [Text (lit " ")]])
    no_wide_case [] (Some (lit "old"))
  = (inr tt, Some (lit "Notion-ID,Front,Back,Tags" ++ CRLF)).
Proof.
  refine (no_cells_header_only
    (fun _ => table_of 1 [th 10 "Tags"; th 11 "Notes"]
                [Elem 20 (lit "tr") [] []; Elem 21 (lit "tr") [] [Text (lit " ")]])
    no_wide_case [] (Some (lit "old"))
    (Elem 1 (lit "table") []
       [Elem 2 (lit "thead") [] [Elem 3 (lit "tr") [] [th 10 "Tags"; th 11 "Notes"]];
        Elem 4 (lit "tbody") []
          [Elem 20 (lit "tr") [] []; Elem 21 (lit "tr") [] [Text (lit " ")]]])
    (Elem 4 (lit "tbody") []
       [Elem 20 (lit "tr") [] []; Elem 21 (lit "tr") [] [Text (lit " ")]])
    (col_map_of [lit "tags"; lit "notes"])
    _ _ _ _).
  - distinct_uids.
  - vm_compute. reflexivity.
  - vm_compute. reflexivity.
  - intros tr Htr. vm_compute in Htr.
    apply elem_of_cons in Htr as [->|Htr]; [reflexivity|].
    apply list_elem_of_singleton in Htr as ->. reflexivity.
Defined.

Lemma first_row_with_cells soup table tbody tr :
  NoDup (uids soup) ->
  find (lit "table") soup = Some table ->
  find (lit "tbody") (node_kids table) = Some tbody ->
  tr ∈ find_all (lit "tr") (node_kids tbody) ->
  find_all (lit "td") (node_kids tr) <> [] ->
  exists pre y post,
    find_all (lit "tr") (node_kids tbody) = pre ++ y :: post
    /\ has_cells soup y = true
    /\ Forall (fun t => has_cells soup t = false) pre.
Proof.
  intros Hwf Ht Hb Htr Hcells.
  apply (first_with (has_cells soup) _ tr Htr).
  unfold has_cells. rewrite (body_rows_in_store _ table tbody) by done.
  by destruct (find_all (lit "td") (node_kids tr)).
Qed.

Lemma row_step_no_tags html_parser col_map store tr r store' :
  col_map !! "tags"%string = None ->
  row_step html_parser col_map store tr = inr (Some r, store') ->
  row_tags r = [].
Proof.
  intros Htags. unfold row_step.
  destruct (find_all (lit "td") (store_kids store (node_uid tr)))
    as [|c tds]; [done|].
  rewrite Htags. unfold bind_error.
  destruct (cell_at col_map "id" (c :: tds)); [done|].
  destruct (cell_at col_map "front" (c :: tds)); [done|].
  destruct (cell_at col_map "back" (c :: tds)); [done|].
  by intros [= <- _].
Qed.

Lemma rows_loop_no_tags html_parser col_map trs : forall store rows0 rows_out,
  col_map !! "tags"%string = None ->
  Forall (fun r => row_tags r = []) rows0 ->
  rows_loop html_parser col_map trs store rows0 = inr rows_out ->
  Forall (fun r => row_tags r = []) rows_out.
Proof.
  induction trs as [|tr trs IH]; intros store rows0 rows_out Htags H0.
  - by intros [= <-].
  - cbn [rows_loop].
    destruct (row_step html_parser col_map store tr) as [e|[[r|] st]] eqn:E;
      [done| |].
    + apply IH; [done|]. apply Forall_app. split; [done|].
      constructor; [|done]. by eapply row_step_no_tags.
    + by apply IH.
Qed.

Lemma rows_loop_errors html_parser col_map trs : forall store rows0 e,
  is_Some (col_map !! "id"%string) ->
  is_Some (col_map !! "front"%string) ->
  is_Some (col_map !! "back"%string) ->
  rows_loop html_parser col_map trs store rows0 = inl e -> e = IndexError.
Proof.
  intros store rows0 e [i Hi] [j Hj] [k Hk]. revert store rows0.
  induction trs as [|tr trs IH]; intros store rows0; [done|].
  cbn [rows_loop].
  destruct (row_step html_parser col_map store tr) as [e'|[[r|] st]] eqn:E;
    [|by apply IH..].
  intros [= ->]. revert E. unfold row_step.
  destruct (find_all (lit "td") (store_kids store (node_uid tr)))
    as [|c tds]; [done|].
  unfold cell_at, bind_error. rewrite Hi, Hj, Hk.
  destruct ((c :: tds) !! i); [|by intros [= <-]].
  destruct ((c :: tds) !! j); [|by intros [= <-]].
  destruct ((c :: tds) !! k); [|by intros [= <-]].
  destruct (col_map !! "tags"%string) as [t|]; [|done].
  destruct ((c :: tds) !! t); [done|by intros [= <-]].
Qed.

(** *** How collecting the rows can fail *)

Lemma row_step_error html_parser col_map store tr e :
  row_step html_parser col_map store tr = inl e ->
  e = IndexError
  \/ (e = KeyError
      /\ (col_map !! "id"%string = None \/ col_map !! "front"%string = None
          \/ col_map !! "back"%string = None)).
Proof.
  unfold row_step.
  destruct (find_all (lit "td") (store_kids store (node_uid tr)))
    as [|c tds]; [done|].
  unfold cell_at, bind_error.
  destruct (col_map !! "id"%string) as [i|]; [|intros [= <-]; auto].
  destruct ((c :: tds) !! i); [|intros [= <-]; auto].
  destruct (col_map !! "front"%string) as [j|]; [|intros [= <-]; auto].
  destruct ((c :: tds) !! j); [|intros [= <-]; auto].
  destruct (col_map !! "back"%string) as [k|]; [|intros [= <-]; auto 6].
  destruct ((c :: tds) !! k); [|intros [= <-]; auto].
  destruct (col_map !! "tags"%string) as [t|]; [|done].
  destruct ((c :: tds) !! t); [done|intros [= <-]; auto].
Qed.

Lemma rows_loop_error html_parser col_map trs : forall store rows0 e,
  rows_loop html_parser col_map trs store rows0 = inl e ->
  e = IndexError
  \/ (e = KeyError
      /\ (col_map !! "id"%string = None \/ col_map !! "front"%string = None
          \/ col_map !! "back"%string = None)).
Proof.
  induction trs as [|tr trs IH]; intros store rows0 e; [done|].
  cbn [rows_loop].
  destruct (row_step html_parser col_map store tr) as [e'|[[r|] st]] eqn:E;
    [|by apply IH..].
  intros [= ->]. by eapply row_step_error.
Qed.

Lemma collect_rows_error html_parser unicode_lower html e :
  collect_rows html_parser unicode_lower html = inl e ->
  e <> UnicodeEncodeError.
Proof.
  unfold collect_rows, parse_table.
  destruct (find (lit "table") (html_parser html)) as [table|];
    [|by intros [= <-]].
  destruct (find (lit "thead") (node_kids table)) as [thead|];
    [|by intros [= <-]].
  cbn [bind_error].
  destruct (find (lit "tbody") (node_kids table)) as [tbody|];
    [|by intros [= <-]].
  intros H. by apply rows_loop_error in H as [->|[-> _]].
Qed.

Lemma row_step_missing_required html_parser col_map store tr :
  has_cells store tr = true ->
  col_map !! "id"%string = None \/ col_map !! "front"%string = None
  \/ col_map !! "back"%string = None ->
  exists e,
    (e = KeyError \/ e = IndexError)
    /\ (col_map !! "id"%string = None -> e = KeyError)
    /\ row_step html_parser col_map store tr = inl e.
Proof.
  unfold has_cells, row_step.
  destruct (find_all (lit "td") (store_kids store (node_uid tr)))
    as [|c tds]; [done|]. intros _ Hmiss.
  unfold cell_at, bind_error.
  destruct (col_map !! "id"%string) as [i|];
    [|exists KeyError; split; [by left|done]].
  destruct ((c :: tds) !! i); [|exists IndexError; split; [by right|done]].
  destruct (col_map !! "front"%string) as [j|];
    [|exists KeyError; split; [by left|done]].
  destruct ((c :: tds) !! j); [|exists IndexError; split; [by right|done]].
  destruct (col_map !! "back"%string) as [k|];
    [|exists KeyError; split; [by left|done]].
  by destruct Hmiss as [?|[?|?]].
Qed.

(** A run whose header row misses a required column fails at the first
    row that has cells, before the output file is opened. *)
Lemma convert_file_missing_required
  html_parser unicode_lower html out table tbody col_map :
  NoDup (uids (html_parser html)) ->
  parse_table unicode_lower (html_parser html) = inr (table, col_map) ->
  find (lit "tbody") (node_kids table) = Some tbody ->
  col_map !! "id"%string = None \/ col_map !! "front"%string = None
  \/ col_map !! "back"%string = None ->
  (exists tr, tr ∈ find_all (lit "tr") (node_kids tbody)
              /\ find_all (lit "td") (node_kids tr) <> []) ->
  exists e,
    (e = KeyError \/ e = IndexError)
    /\ (col_map !! "id"%string = None -> e = KeyError)
    /\ convert_file html_parser unicode_lower html out = (inl e, out).
Proof.
  intros Hwf Hparse Hbody Hmiss (tr & Htr & Hcells).
  destruct (first_row_with_cells _ table tbody tr Hwf
              (parse_table_parts _ _ _ _ Hparse) Hbody Htr Hcells)
    as (pre & y & post & Hsplit & Hy & Hpre).
  destruct (row_step_missing_required html_parser col_map _ y Hy Hmiss)
    as (e & He & Hid & Hstep).
  exists e. split; [done|]. split; [done|].
  unfold convert_file, collect_rows.
  rewrite Hparse. cbn [bind_error]. rewrite Hbody, Hsplit.
  by rewrite (rows_loop_first_error _ _ _ _ _ _ _ e).
Qed.

Lemma row_encodable_spec r :
  row_encodable r = true
  <-> Forall (Forall (fun c => (c < 55296 \/ 57343 < c)%N)) (row_fields r).
Proof.
  unfold row_encodable. rewrite forallb_forall, Forall_forall.
  split; intros H field Hf.
  - apply list_elem_of_In, H in Hf. unfold encodable in Hf.
    rewrite forallb_forall in Hf. apply Forall_forall. intros c Hc.
    apply list_elem_of_In, Hf in Hc. unfold is_surrogate in Hc.
    apply negb_true_iff, andb_false_iff in Hc as [Hc|Hc];
      apply N.leb_gt in Hc; lia.
  - apply list_elem_of_In, H in Hf. unfold encodable.
    apply forallb_forall. intros c Hc.
    rewrite Forall_forall in Hf. apply list_elem_of_In, Hf in Hc.
    unfold is_surrogate. apply negb_true_iff, andb_false_iff.
    destruct Hc; [left|right]; apply N.leb_gt; lia.
Qed.

(** C1, as amended. A run ends in one of three ways.  It fails while it
    collects the rows (on a method of [None], a missing key or an index):
    this is before the output file is opened, and the file is left as it
    was.  Or every row can be encoded
    and the run completes: the file holds the header line and one line
    for each row.  Or the writer fails on the first row that holds a
    character UTF-8 cannot encode (a surrogate): then the file holds the
    header line and the lines of the rows before that row.  When the
    header row gives no [front] or no [back] column and a row of the body
    has cells, the run fails in the first way, on a missing key or an
    index. *)
Theorem convert_file_outcomes
  (html_parser : str -> forest) (unicode_lower : str -> nat -> str)
  (html : str) (out : file) :
  match collect_rows html_parser unicode_lower html with
  | inl e =>
      (e = AttributeError \/ e = KeyError \/ e = IndexError)
      /\ convert_file html_parser unicode_lower html out = (inl e, out)
  | inr rows_out =>
      (Forall (fun r => row_encodable r = true) rows_out
       /\ convert_file html_parser unicode_lower html out
          = (inr tt,
             Some (lit "Notion-ID,Front,Back,Tags" ++ CRLF
                   ++ flat_map (fun r => csv_line (row_fields r)) rows_out)))
      \/ (exists pre r post,
            rows_out = pre ++ r :: post
            /\ Forall (fun r => row_encodable r = true) pre
            /\ row_encodable r = false
            /\ convert_file html_parser unicode_lower html out
               = (inl UnicodeEncodeError,
                  Some (lit "Notion-ID,Front,Back,Tags" ++ CRLF
                        ++ flat_map (fun r => csv_line (row_fields r)) pre)))
  end
  /\ (forall r,
        row_encodable r = true
        <-> Forall (Forall (fun c => (c < 55296 \/ 57343 < c)%N))
                   (row_fields r))
  /\ (forall table tbody col_map,
        NoDup (uids (html_parser html)) ->
        parse_table unicode_lower (html_parser html) = inr (table, col_map) ->
        find (lit "tbody") (node_kids table) = Some tbody ->
        col_map !! "front"%string = None \/ col_map !! "back"%string = None ->
        (exists tr, tr ∈ find_all (lit "tr") (node_kids tbody)
                    /\ find_all (lit "td") (node_kids tr) <> []) ->
        exists e,
          (e = KeyError \/ e = IndexError)
          /\ convert_file html_parser unicode_lower html out = (inl e, out)).
Proof.
  split; [|split; [apply row_encodable_spec|]].
  - unfold convert_file.
    destruct (collect_rows html_parser unicode_lower html) as [e|rows_out]
      eqn:Hrows.
    + split; [|done]. apply collect_rows_error in Hrows.
      destruct e; auto. done.
    + destruct (first_unencodable rows_out)
        as [Hall|(pre & r & post & -> & Hpre & Hr)].
      * left. split; [done|]. by rewrite write_csv_all.
      * right. exists pre, r, post. repeat split; try done.
        by rewrite write_csv_stops.
  - intros table tbody col_map Hwf Hparse Hbody Hmiss Hrow.
    destruct (convert_file_missing_required html_parser unicode_lower html out
                table tbody col_map Hwf Hparse Hbody) as (e & He & _ & Hrun);
      [tauto|done|].
    by exists e.
Qed.

Lemma convert_file_outcomes_witness :
  exists e,
    (e = KeyError \/ e = IndexError)
    /\ convert_file
         (fun _ => table_of 1 [th 10 "Back"; th 11 "Notion-ID"]
                     [Elem 20 (lit "tr") []
                        [td 21 [Text (lit "b")]; td 22 [Text (lit "n1")]]])
         no_wide_case [] (Some (lit "old"))
       = (inl e, Some (lit "old")).
Proof.
  refine (proj2 (proj2 (convert_file_outcomes
    (fun _ => table_of 1 [th 10 "Back"; th 11 "Notion-ID"]
                [Elem 20 (lit "tr") []
                   [td 21 [Text (lit "b")]; td 22 [Text (lit "n1")]]])
    no_wide_case [] (Some (lit "old"))))
    (Elem 1 (lit "table") []
       [Elem 2 (lit "thead") []
          [Elem 3 (lit "tr") [] [th 10 "Back"; th 11 "Notion-ID"]];
        Elem 4 (lit "tbody") []
          [Elem 20 (lit "tr") []
             [td 21 [Text (lit "b")]; td 22 [Text (lit "n1")]]]])
    (Elem 4 (lit "tbody") []
       [Elem 20 (lit "tr") []
          [td 21 [Text (lit "b")]; td 22 [Text (lit "n1")]]])
    (col_map_of [lit "back"; lit "notion-id"])
    _ _ _ _ _).
  - distinct_uids.
  - vm_compute. reflexivity.
  - vm_compute. reflexivity.
  - left. vm_compute. reflexivity.
  - exists (Elem 20 (lit "tr") []
              [td 21 [Text (lit "b")]; td 22 [Text (lit "n1")]]).
    split; [vm_compute; by left|by vm_compute].
Defined.

(** C1, as stated, fails twice.  Without a [front] column and without a
    row that has cells, the run succeeds and writes the header line.  And
    a failed run can leave a partial output file: the second row of the
    second table holds the surrogate U+D800 (as the parser reads the
    character reference [&#xD800;]); the file did not exist before the
    run, and after the failed run it holds the header line and the first
    row. *)
Lemma missing_front_succeeds_and_partial_output :
  let soup := table_of 1 [th 10 "Back"; th 11 "Notion-ID"]
                [Elem 20 (lit "tr") [] []] in
  let soup2 :=
    table_of 1 [th 10 "Front"; th 11 "Back"; th 12 "Notion-ID"]
      [Elem 20 (lit "tr") []
         [td 21 [Text (lit "q1")]; td 22 [Text (lit "a1")];
          td 23 [Text (lit "n1")]];
       Elem 30 (lit "tr") []
         [td 31 [Text [55296%N]]; td 32 [Text (lit "a2")];
          td 33 [Text (lit "n2")]]] in
  (exists table col_map,
     parse_table no_wide_case soup = inr (table, col_map)
     /\ col_map !! "front"%string = None)
  /\ convert_file (fun _ => soup) no_wide_case [] None
     = (inr tt, Some (lit "Notion-ID,Front,Back,Tags" ++ CRLF))
  /\ ~ (forall html_parser unicode_lower html out table col_map,
          parse_table unicode_lower (html_parser html) = inr (table, col_map) ->
          col_map !! "front"%string = None
          \/ col_map !! "back"%string = None ->
          exists e,
            convert_file html_parser unicode_lower html out = (inl e, out))
  /\ convert_file (fun _ => soup2) no_wide_case [] None
     = (inl UnicodeEncodeError,
        Some (lit "Notion-ID,Front,Back,Tags" ++ CRLF
              ++ lit "n1,q1,a1," ++ CRLF))
  /\ ~ (forall html_parser unicode_lower html out,
          (exists f,
             convert_file html_parser unicode_lower html out = (inr tt, f))
          \/ (exists e,
                convert_file html_parser unicode_lower html out = (inl e, out))).
Proof.
  intros soup soup2.
  assert (exists table col_map,
            parse_table no_wide_case soup = inr (table, col_map)
            /\ col_map !! "front"%string = None) as Hparse.
  { eexists _, (col_map_of [lit "back"; lit "notion-id"]).
    split; [reflexivity|by vm_compute]. }
  assert (convert_file (fun _ => soup) no_wide_case [] None
          = (inr tt, Some (lit "Notion-ID,Front,Back,Tags" ++ CRLF))) as Hrun
    by (by vm_compute).
  assert (convert_file (fun _ => soup2) no_wide_case [] None
          = (inl UnicodeEncodeError,
             Some (lit "Notion-ID,Front,Back,Tags" ++ CRLF
                   ++ lit "n1,q1,a1," ++ CRLF))) as Hrun2
    by (by vm_compute).
  split; [exact Hparse|]. split; [exact Hrun|]. split; [|split; [exact Hrun2|]].
  - intros H. destruct Hparse as (table & col_map & Hp & Hfront).
    destruct (H (fun _ => soup) no_wide_case [] None table col_map Hp
                (or_introl Hfront)) as [e He].
    rewrite Hrun in He. discriminate.
  - intros H.
    destruct (H (fun _ => soup2) no_wide_case [] None) as [[f Hf]|[e He]];
      rewrite Hrun2 in *; discriminate.
Qed.


(** *** Distinct identities in the tree *)

Lemma elems_of_kids_sublist n :
  uids (node_kids n) `sublist_of` uids [n].
Proof.
  destruct n as [s|u nm a kids|c s]; [done| |done].
  rewrite uids_elem. by apply sublist_cons.
Qed.

Lemma NoDup_uids_kids f n :
  NoDup (uids f) -> n ∈ elems_of f -> NoDup (uids (node_kids n)).
Proof.
  intros Hwf Hn. induction f as [|k f IHf]; [by apply elem_of_nil in Hn|].
  rewrite uids_cons in Hwf. apply NoDup_app in Hwf as (Hk & _ & Hf).
  rewrite elems_of_cons, elem_of_app in Hn.
  destruct Hn as [Hn|Hn]; [|by apply IHf]. clear IHf Hf.
  induction k as [s|u nm a kids IH|c s] using node_forest_ind;
    [by apply elem_of_nil in Hn| |by apply elem_of_nil in Hn].
  rewrite uids_elem in Hk. apply NoDup_cons in Hk as [_ Hkids].
  cbn [node_elems] in Hn. apply elem_of_cons in Hn as [->|Hn]; [done|].
  fold (elems_of kids) in Hn. clear u nm a.
  induction IH as [|k kids Hk _ IHk]; [by apply elem_of_nil in Hn|].
  rewrite uids_cons in Hkids. apply NoDup_app in Hkids as (H1 & _ & H2).
  rewrite elems_of_cons, elem_of_app in Hn.
  destruct Hn as [Hn|Hn]; [by apply Hk|by apply IHk].
Qed.

Lemma elem_unique f m n :
  NoDup (uids f) -> m ∈ elems_of f -> n ∈ elems_of f ->
  node_uid m = node_uid n -> m = n.
Proof.
  intros Hwf Hm Hn E.
  pose proof (store_find_elem f m Hwf Hm) as H1.
  pose proof (store_find_elem f n Hwf Hn) as H2.
  rewrite E in H1. congruence.
Qed.

Lemma elem_uid_in f n : n ∈ elems_of f -> node_uid n ∈ uids f.
Proof. intros. unfold uids. by apply list_elem_of_fmap_2. Qed.

Lemma node_elems_self_or_below k n :
  n ∈ node_elems k -> n = k \/ n ∈ elems_of (node_kids k).
Proof.
  destruct k as [s|u nm a kids|c s];
    [by intros ?%elem_of_nil| |by intros ?%elem_of_nil].
  cbn [node_elems node_kids]. intros [->|H]%elem_of_cons; auto.
Qed.

Lemma node_elems_uids k : map node_uid (node_elems k) = uids [k].
Proof. unfold uids, elems_of. cbn [flat_map]. by rewrite app_nil_r. Qed.

(** Two elements above the same element are one above the other. *)
Lemma two_ancestors f a b x :
  NoDup (uids f) -> a ∈ elems_of f -> b ∈ elems_of f ->
  x ∈ elems_of (node_kids a) -> x ∈ elems_of (node_kids b) ->
  a = b \/ a ∈ elems_of (node_kids b) \/ b ∈ elems_of (node_kids a).
Proof.
  intros Hwf Ha Hb Hxa Hxb. revert Hwf Ha Hb.
  induction f as [|k f IHf]; intros Hwf Ha Hb; [by apply elem_of_nil in Ha|].
  rewrite uids_cons in Hwf. apply NoDup_app in Hwf as (Hk & Hdisj & Hf).
  rewrite elems_of_cons, elem_of_app in Ha, Hb.
  assert (forall y, y ∈ node_elems k -> x ∈ elems_of (node_kids y) ->
            node_uid x ∈ uids [k]) as Hin_k.
  { intros y Hy Hx. rewrite <- node_elems_uids. apply list_elem_of_fmap_2.
    apply node_elems_self_or_below in Hy as [->|Hy].
    - by apply node_elems_kids.
    - apply node_elems_kids. by eapply elems_of_descend. }
  assert (forall y, y ∈ elems_of f -> x ∈ elems_of (node_kids y) ->
            node_uid x ∈ uids f) as Hin_f.
  { intros y Hy Hx. apply elem_uid_in. by eapply elems_of_descend. }
  destruct Ha as [Ha|Ha], Hb as [Hb|Hb].
  - clear IHf Hdisj Hf Hin_f Hin_k.
    induction k as [s|u nm ats kids IH|c s] using node_forest_ind;
      [by apply elem_of_nil in Ha| |by apply elem_of_nil in Ha].
    apply node_elems_self_or_below in Ha as [->|Ha];
      apply node_elems_self_or_below in Hb as [->|Hb]; auto.
    cbn [node_kids] in Ha, Hb.
    rewrite uids_elem in Hk. apply NoDup_cons in Hk as [_ Hkids].
    clear u nm ats.
    induction IH as [|k kids Hk1 _ IHk]; [by apply elem_of_nil in Ha|].
    rewrite uids_cons in Hkids. apply NoDup_app in Hkids as (H1 & Hd & H2).
    rewrite elems_of_cons, elem_of_app in Ha, Hb.
    destruct Ha as [Ha|Ha], Hb as [Hb|Hb]; [by apply Hk1| | |by apply IHk].
    + exfalso. apply (Hd (node_uid x)).
      * rewrite <- node_elems_uids. apply list_elem_of_fmap_2.
        apply node_elems_self_or_below in Ha as [->|Ha];
          [by apply node_elems_kids|].
        apply node_elems_kids. by eapply elems_of_descend.
      * apply elem_uid_in. by eapply elems_of_descend.
    + exfalso. apply (Hd (node_uid x)).
      * rewrite <- node_elems_uids. apply list_elem_of_fmap_2.
        apply node_elems_self_or_below in Hb as [->|Hb];
          [by apply node_elems_kids|].
        apply node_elems_kids. by eapply elems_of_descend.
      * apply elem_uid_in. by eapply elems_of_descend.
  - exfalso. apply (Hdisj (node_uid x)); eauto.
  - exfalso. apply (Hdisj (node_uid x)); eauto.
  - by apply IHf.
Qed.

(** *** What a rewriting in place leaves alone *)

Lemma elems_of_flat_map_member (F : node -> forest) l k n :
  k ∈ l -> n ∈ elems_of (F k) -> n ∈ elems_of (flat_map F l).
Proof.
  intros Hk Hn. induction l as [|x l IH]; [by apply elem_of_nil in Hk|].
  cbn [flat_map]. rewrite elems_of_app, elem_of_app.
  apply elem_of_cons in Hk as [->|Hk]; [by left|right; by apply IH].
Qed.

Lemma elems_of_member k f n :
  k ∈ f -> n ∈ node_elems k -> n ∈ elems_of f.
Proof.
  intros Hk Hn. apply list_elem_of_In. unfold elems_of. apply in_flat_map.
  exists k. split; by apply list_elem_of_In.
Qed.

(** An element that is not the rewritten one, nor above it, nor below
    it, is still in the tree, as it was. *)
Lemma rewrite_node_keeps u h k : forall n,
  n ∈ node_elems k -> node_uid n <> u -> u ∉ uids (node_kids n) ->
  (forall m, m ∈ node_elems k -> node_uid m = u ->
             n ∉ elems_of (node_kids m)) ->
  n ∈ elems_of (rewrite_node u h k).
Proof.
  induction k as [s|v nm a kids IH|c s] using node_forest_ind;
    intros n Hn Hne Hnot Habove;
    [by apply elem_of_nil in Hn| |by apply elem_of_nil in Hn].
  cbn [rewrite_node]. destruct (Nat.eqb_spec v u) as [->|Hv].
  - exfalso. apply node_elems_self_or_below in Hn as [->|Hn]; [done|].
    apply (Habove (Elem u nm a kids)); [by left|done|done].
  - unfold elems_of at 1. cbn [flat_map node_elems]. rewrite app_nil_r.
    fold (elems_of (flat_map (rewrite_node u h) kids)).
    apply node_elems_self_or_below in Hn as [->|Hn].
    + cbn [node_kids] in Hnot.
      change (flat_map (rewrite_node u h) kids) with (rewrite_at u h kids).
      rewrite rewrite_at_miss by done. by left.
    + right. cbn [node_kids] in Hn.
      apply list_elem_of_In, in_flat_map in Hn as (k & Hk & Hn).
      apply list_elem_of_In in Hk, Hn.
      apply (elems_of_flat_map_member _ _ k); [done|].
      rewrite Forall_forall in IH. apply (IH k Hk n Hn Hne Hnot).
      intros m Hm. apply Habove. right.
      by apply (elems_of_member k).
Qed.

Lemma rewrite_at_keeps u h f n :
  n ∈ elems_of f -> node_uid n <> u -> u ∉ uids (node_kids n) ->
  (forall m, m ∈ elems_of f -> node_uid m = u ->
             n ∉ elems_of (node_kids m)) ->
  n ∈ elems_of (rewrite_at u h f).
Proof.
  intros Hn Hne Hnot Habove.
  apply list_elem_of_In, in_flat_map in Hn as (k & Hk & Hn).
  apply list_elem_of_In in Hk, Hn.
  apply (elems_of_flat_map_member _ _ k); [done|].
  apply rewrite_node_keeps; try done.
  intros m Hm. apply Habove. by apply (elems_of_member k).
Qed.

Lemma rewrite_at_uids_sublist u g f :
  (forall kids, NoDup (uids kids) -> uids (g kids) `sublist_of` uids kids) ->
  NoDup (uids f) ->
  uids (rewrite_at u (set_kids g) f) `sublist_of` uids f.
Proof.
  intros Hg. induction f as [|k f IHf]; intros Hwf; [done|].
  rewrite uids_cons in Hwf. apply NoDup_app in Hwf as (Hk & _ & Hf).
  rewrite rewrite_at_cons, uids_app, uids_cons.
  apply sublist_app; [|by apply IHf]. clear IHf Hf.
  induction k as [s|v nm a kids IH|c s] using node_forest_ind; [done| |done].
  rewrite uids_elem in Hk. apply NoDup_cons in Hk as [_ Hkids].
  cbn [rewrite_node]. destruct (v =? u).
  - cbn [set_kids]. rewrite !uids_elem. apply sublist_skip. by apply Hg.
  - rewrite !uids_elem. apply sublist_skip.
    clear v nm a. induction IH as [|k kids Hk1 _ IHk]; [done|].
    rewrite uids_cons in Hkids. apply NoDup_app in Hkids as (H1 & _ & H2).
    cbn [flat_map]. rewrite uids_app, uids_cons.
    apply sublist_app; [by apply Hk1|by apply IHk].
Qed.

Lemma sanitize_tree_uids_sublist f :
  NoDup (uids f) -> uids (sanitize_tree f) `sublist_of` uids f.
Proof.
  intros Hwf. rewrite sanitize_tree_structural by done.
  unfold sanitize_tree_rec. rewrite uids_map_where.
  etrans; [apply uids_splice_sublist|]. by rewrite !uids_map_where.
Qed.

(** *** Flat tables *)

Lemma find_all_name name f n : n ∈ find_all name f -> node_name n = name.
Proof.
  unfold find_all. intros H.
  apply list_elem_of_In, filter_In in H as [_ H].
  unfold str_eqb in H. by apply bool_decide_eq_true_1 in H.
Qed.

Lemma flat_row_spec tr :
  flat_row tr = true ->
  (forall n, n ∈ elems_of (node_kids tr) -> node_name n <> lit "tr")
  /\ (forall td n, td ∈ find_all (lit "td") (node_kids tr) ->
        n ∈ elems_of (node_kids td) -> node_name n <> lit "td").
Proof.
  unfold flat_row. intros [H1 H2]%andb_prop.
  rewrite forallb_forall in H1, H2. split.
  - intros n Hn E. apply list_elem_of_In, H1 in Hn.
    unfold str_eqb in Hn. by rewrite bool_decide_eq_true_2 in Hn.
  - intros td n Htd Hn E. apply list_elem_of_In, H2 in Htd.
    rewrite forallb_forall in Htd. apply list_elem_of_In, Htd in Hn.
    unfold str_eqb in Hn. by rewrite bool_decide_eq_true_2 in Hn.
Qed.

Lemma NoDup_map_filter {A B} (g : A -> B) (p : A -> bool) (l : list A) :
  NoDup (map g l) -> NoDup (map g (List.filter p l)).
Proof.
  induction l as [|x l IH]; [done|]. cbn [map List.filter].
  intros [Hx Hl]%NoDup_cons. destruct (p x); [|by apply IH].
  cbn [map]. apply NoDup_cons. split; [|by apply IH].
  intros H. apply Hx. apply list_elem_of_fmap in H as (y & -> & Hy).
  apply list_elem_of_fmap_2.
  apply list_elem_of_In, filter_In in Hy as [Hy _]. by apply list_elem_of_In.
Qed.

Lemma cells_distinct f tr (tds : list node) i j x y :
  NoDup (uids f) -> tr ∈ elems_of f ->
  tds = find_all (lit "td") (node_kids tr) ->
  tds !! i = Some x -> tds !! j = Some y -> i <> j ->
  node_uid x <> node_uid y.
Proof.
  intros Hwf Htr -> Hi Hj Hne E.
  assert (NoDup (map node_uid (find_all (lit "td") (node_kids tr)))) as Hnd.
  { apply NoDup_map_filter. by eapply NoDup_uids_kids. }
  apply Hne. eapply NoDup_lookup; [exact Hnd| |].
  - by rewrite list_lookup_fmap, Hi.
  - rewrite list_lookup_fmap, Hj. cbn. by rewrite E.
Qed.

Lemma below_by_uid f n m :
  NoDup (uids f) -> n ∈ elems_of f -> m ∈ elems_of f ->
  node_uid m ∈ uids (node_kids n) -> m ∈ elems_of (node_kids n).
Proof.
  intros Hwf Hn Hm Hu. unfold uids in Hu.
  apply list_elem_of_fmap in Hu as (x & E & Hx).
  pose proof (elems_of_descend f n x Hn Hx) as Hxf.
  by rewrite (elem_unique f m x Hwf Hm Hxf E).
Qed.

(** One turn on a flat row: the row is the one read from the parsed
    tree, and the other flat rows are in the tree after the turn as they
    were before. *)
Lemma row_step_flat html_parser col_map store tr :
  NoDup (uids store) -> tr ∈ elems_of store ->
  node_name tr = lit "tr" -> flat_row tr = true ->
  (forall k t, col_map !! "back"%string = Some k ->
               col_map !! "tags"%string = Some t -> k <> t) ->
  match row_of html_parser col_map tr with
  | inl e => row_step html_parser col_map store tr = inl e
  | inr r =>
      exists store',
        row_step html_parser col_map store tr = inr (r, store')
        /\ NoDup (uids store')
        /\ forall n, n ∈ elems_of store -> node_name n = lit "tr" ->
             flat_row n = true -> node_uid n <> node_uid tr ->
             n ∈ elems_of store'
  end.
Proof.
  intros Hwf Htr Hname Hflat Hdist.
  destruct (flat_row_spec tr Hflat) as [Hno_tr Hno_td].
  unfold row_step, row_of. rewrite (store_kids_elem store tr) by done.
  remember (find_all (lit "td") (node_kids tr)) as tds eqn:Etds.
  destruct tds as [|c l].
  { exists store. by repeat split. }
  cbv beta iota. remember (c :: l) as cells eqn:Ecells.
  assert (forall x, x ∈ cells -> x ∈ find_all (lit "td") (node_kids tr))
    as Hcells by (intros x Hx; by rewrite <- Etds).
  unfold cell_at, bind_error.
  destruct (col_map !! "id"%string) as [i|]; [|done].
  destruct (cells !! i) as [td_id|]; [|done].
  destruct (col_map !! "front"%string) as [j|]; [|done].
  destruct (cells !! j) as [td_front|]; [|done].
  destruct (col_map !! "back"%string) as [k|] eqn:Ek; [|done].
  destruct (cells !! k) as [td_back|] eqn:Eback; [|done].
  set (store' := rewrite_at (node_uid td_back) (set_kids sanitize_tree) store).
  assert (td_back ∈ find_all (lit "td") (node_kids tr)) as Hback_in
    by (by eapply Hcells, list_elem_of_lookup_2).
  assert (td_back ∈ elems_of (node_kids tr)) as Hback_tr
    by (by eapply find_all_elem).
  pose proof (elems_of_descend store tr td_back Htr Hback_tr) as Hback_store.
  assert (node_name td_back = lit "td") as Hback_name
    by (by eapply find_all_name).
  assert (NoDup (uids store')) as Hwf'.
  { apply (sublist_NoDup _ (uids store)); [exact Hwf|].
    apply rewrite_at_uids_sublist; [|done].
    apply sanitize_tree_uids_sublist. }
  assert (forall n, n ∈ elems_of store -> node_name n = lit "tr" ->
            flat_row n = true -> node_uid n <> node_uid tr ->
            n ∈ elems_of store') as Hkeep.
  { intros n Hn Hn_name Hn_flat Hn_uid.
    destruct (flat_row_spec n Hn_flat) as [Hn_no_tr _].
    apply rewrite_at_keeps; [done| | |].
    - intros E. rewrite (elem_unique store n td_back Hwf Hn Hback_store E)
        in Hn_name. rewrite Hback_name in Hn_name. by vm_compute in Hn_name.
    - intros Hin.
      pose proof (below_by_uid store n td_back Hwf Hn Hback_store Hin) as Hb.
      destruct (two_ancestors store tr n td_back Hwf Htr Hn Hback_tr Hb)
        as [->|[H|H]]; [done| |].
      + by apply (Hn_no_tr tr).
      + by apply (Hno_tr n).
    - intros m Hm Em Hbelow.
      rewrite (elem_unique store m td_back Hwf Hm Hback_store Em) in Hbelow.
      apply (Hno_tr n); [|done].
      exact (elems_of_descend _ _ _ Hback_tr Hbelow). }
  destruct (col_map !! "tags"%string) as [t|] eqn:Et.
  2:{ exists store'. by repeat split. }
  destruct (cells !! t) as [td_tags|] eqn:Etags; [|done].
  assert (td_tags ∈ find_all (lit "td") (node_kids tr)) as Htags_in
    by (by eapply Hcells, list_elem_of_lookup_2).
  assert (td_tags ∈ elems_of (node_kids tr)) as Htags_tr
    by (by eapply find_all_elem).
  pose proof (elems_of_descend store tr td_tags Htr Htags_tr) as Htags_store.
  assert (td_tags ∈ elems_of store') as Htags'.
  { apply rewrite_at_keeps; [done| | |].
    - intros E. symmetry in E. revert E.
      apply (cells_distinct store tr cells k t); try done. by eapply Hdist.
    - intros Hin.
      pose proof (below_by_uid store td_tags td_back Hwf Htags_store
                    Hback_store Hin) as Hb.
      apply (Hno_td td_tags td_back);
        [by eapply list_elem_of_lookup_2|done|done].
    - intros m Hm Em Hbelow.
      rewrite (elem_unique store m td_back Hwf Hm Hback_store Em) in Hbelow.
      apply (Hno_td td_back td_tags);
        [by eapply list_elem_of_lookup_2|done|].
      by eapply find_all_name. }
  rewrite (store_kids_elem store' td_tags) by done.
  exists store'. by repeat split.
Qed.

Lemma rows_loop_flat html_parser col_map trs : forall store rows0,
  NoDup (uids store) -> NoDup (map node_uid trs) ->
  Forall (fun tr => tr ∈ elems_of store /\ node_name tr = lit "tr"
                    /\ flat_row tr = true) trs ->
  (forall k t, col_map !! "back"%string = Some k ->
               col_map !! "tags"%string = Some t -> k <> t) ->
  rows_loop html_parser col_map trs store rows0
  = (let? rows := rows_of html_parser col_map trs in inr (rows0 ++ rows)).
Proof.
  induction trs as [|tr trs IH]; intros store rows0 Hwf Hnd Hall Hdist.
  - cbn. by rewrite app_nil_r.
  - cbn [map] in Hnd. apply NoDup_cons in Hnd as [Htr_new Hnd].
    inversion Hall as [|? ? (Htr & Hname & Hflat) Hrest]; subst.
    pose proof (row_step_flat html_parser col_map store tr
                  Hwf Htr Hname Hflat Hdist) as Hstep.
    cbn [rows_loop rows_of]. unfold bind_error at 1.
    destruct (row_of html_parser col_map tr) as [e|r]; [by rewrite Hstep|].
    destruct Hstep as (store' & -> & Hwf' & Hkeep).
    assert (Forall (fun tr0 => tr0 ∈ elems_of store'
                      /\ node_name tr0 = lit "tr" /\ flat_row tr0 = true) trs)
      as Hall'.
    { rewrite Forall_forall in Hrest |- *. intros n Hn.
      destruct (Hrest n Hn) as (H1 & H2 & H3). split; [|done].
      apply Hkeep; try done. intros E. apply Htr_new. rewrite <- E.
      by apply list_elem_of_fmap_2. }
    destruct r as [r|]; rewrite IH by done; unfold bind_error;
      destruct (rows_of html_parser col_map trs); try done.
    by rewrite <- app_assoc.
Qed.

Lemma rows_of_length html_parser col_map trs rows :
  rows_of html_parser col_map trs = inr rows ->
  length rows = length (List.filter row_has_cells trs).
Proof.
  revert rows. induction trs as [|tr trs IH]; intros rows.
  - by intros [= <-].
  - cbn [rows_of List.filter]. unfold bind_error at 1.
    destruct (row_of html_parser col_map tr) as [e|r] eqn:Er; [done|].
    unfold bind_error.
    destruct (rows_of html_parser col_map trs) as [e|rs]; [done|].
    intros [= <-]. specialize (IH rs eq_refl).
    revert Er. unfold row_of, row_has_cells.
    destruct (find_all (lit "td") (node_kids tr)) as [|c l].
    + by intros [= <-].
    + unfold bind_error.
      repeat match goal with
             | |- context [match ?x with _ => _ end] =>
                 lazymatch x with
                 | context [match _ with _ => _ end] => fail
                 | _ => destruct x
                 end
             end; try done; intros [= <-]; cbn [length]; by rewrite IH.
Qed.

Lemma parse_table_col_map_of unicode_lower soup table col_map :
  parse_table unicode_lower soup = inr (table, col_map) ->
  exists headers, col_map = col_map_of headers.
Proof.
  unfold parse_table. destruct (find (lit "table") soup) as [t|]; [|done].
  destruct (find (lit "thead") (node_kids t)) as [h|]; [|done].
  intros [= _ <-]. by eexists.
Qed.

Lemma bind_error_inr {A} (x : error + list A) :
  (let? rows := x in inr ([] ++ rows)) = x.
Proof. by destruct x. Qed.

Lemma collect_rows_flat html_parser unicode_lower html table tbody col_map :
  NoDup (uids (html_parser html)) ->
  parse_table unicode_lower (html_parser html) = inr (table, col_map) ->
  find (lit "tbody") (node_kids table) = Some tbody ->
  forallb flat_row (find_all (lit "tr") (node_kids tbody)) = true ->
  collect_rows html_parser unicode_lower html
  = rows_of html_parser col_map (find_all (lit "tr") (node_kids tbody)).
Proof.
  intros Hwf Hparse Hbody Hflat.
  pose proof (parse_table_parts _ _ _ _ Hparse) as Htable.
  unfold collect_rows. rewrite Hparse. cbn [bind_error]. rewrite Hbody.
  rewrite rows_loop_flat; [apply bind_error_inr|done| | |].
  - apply NoDup_map_filter. eapply NoDup_uids_kids; [exact Hwf|].
    apply find_elem in Htable, Hbody.
    exact (elems_of_descend _ _ _ Htable Hbody).
  - apply Forall_forall. intros tr Htr. split; [|split].
    + apply find_elem in Htable, Hbody. apply find_all_elem in Htr.
      eapply elems_of_descend; [|exact Htr].
      exact (elems_of_descend _ _ _ Htable Hbody).
    + by eapply find_all_name.
    + rewrite forallb_forall in Hflat. by apply Hflat, list_elem_of_In.
  - intros k t Hk Ht ->.
    destruct (parse_table_col_map_of _ _ _ _ Hparse) as [headers ->].
    apply col_map_of_lookup in Hk as [(n1 & Hl1 & Hr1) _].
    apply col_map_of_lookup in Ht as [(n2 & Hl2 & Hr2) _].
    congruence.
Qed.

(** *** Optional and required columns *)

Lemma row_of_no_cells html_parser col_map tr :
  row_has_cells tr = false -> row_of html_parser col_map tr = inr None.
Proof.
  unfold row_has_cells, row_of.
  by destruct (find_all (lit "td") (node_kids tr)).
Qed.

Lemma row_of_complete html_parser col_map tr i j k :
  col_map !! "id"%string = Some i ->
  col_map !! "front"%string = Some j ->
  col_map !! "back"%string = Some k ->
  row_has_cells tr = true ->
  complete_row i j k (col_map !! "tags"%string) tr = true ->
  row_of html_parser col_map tr
  = inr (Some (emitted_row html_parser i j k (col_map !! "tags"%string) tr)).
Proof.
  intros Hi Hj Hk. unfold row_has_cells, complete_row, row_of, emitted_row.
  destruct (find_all (lit "td") (node_kids tr)) as [|c l]; [done|].
  intros _ H. apply andb_prop in H as [H Ht].
  apply andb_prop in H as [H Hk']. apply andb_prop in H as [Hi' Hj'].
  apply Nat.ltb_lt, lookup_lt_is_Some in Hi' as [td_id Hid].
  apply Nat.ltb_lt, lookup_lt_is_Some in Hj' as [td_front Hfront].
  apply Nat.ltb_lt, lookup_lt_is_Some in Hk' as [td_back Hback].
  unfold cell_at, bind_error, cell_kids, sanitize_inline_html.
  rewrite Hi, Hj, Hk, Hid, Hfront, Hback.
  destruct (col_map !! "tags"%string) as [t|]; [|done].
  apply Nat.ltb_lt, lookup_lt_is_Some in Ht as [td_tags Htags].
  by rewrite Htags.
Qed.

Lemma row_of_short html_parser col_map tr i j k :
  col_map !! "id"%string = Some i ->
  col_map !! "front"%string = Some j ->
  col_map !! "back"%string = Some k ->
  row_has_cells tr = true ->
  complete_row i j k (col_map !! "tags"%string) tr = false ->
  row_of html_parser col_map tr = inl IndexError.
Proof.
  intros Hi Hj Hk. unfold row_has_cells, complete_row, row_of.
  destruct (find_all (lit "td") (node_kids tr)) as [|c l]; [done|].
  intros _ H. unfold cell_at, bind_error. rewrite Hi, Hj, Hk.
  destruct ((c :: l) !! i) as [td_id|] eqn:Hid; [|done].
  destruct ((c :: l) !! j) as [td_front|] eqn:Hfront; [|done].
  destruct ((c :: l) !! k) as [td_back|] eqn:Hback; [|done].
  apply lookup_lt_Some, Nat.ltb_lt in Hid, Hfront, Hback.
  rewrite Hid, Hfront, Hback in H. cbn [andb] in H.
  destruct (col_map !! "tags"%string) as [t|]; [|done].
  destruct ((c :: l) !! t) as [td_tags|] eqn:Htags; [|done].
  apply lookup_lt_Some, Nat.ltb_lt in Htags. congruence.
Qed.

Lemma rows_of_complete html_parser col_map trs i j k :
  col_map !! "id"%string = Some i ->
  col_map !! "front"%string = Some j ->
  col_map !! "back"%string = Some k ->
  Forall (fun tr => row_has_cells tr = true ->
            complete_row i j k (col_map !! "tags"%string) tr = true) trs ->
  rows_of html_parser col_map trs
  = inr (map (emitted_row html_parser i j k (col_map !! "tags"%string))
           (List.filter row_has_cells trs)).
Proof.
  intros Hi Hj Hk. induction 1 as [|tr trs Htr _ IH]; [done|].
  cbn [rows_of List.filter]. destruct (row_has_cells tr) eqn:Hc.
  - rewrite (row_of_complete _ _ _ i j k) by auto.
    cbn [bind_error map]. by rewrite IH.
  - rewrite row_of_no_cells by done. cbn [bind_error]. by rewrite IH.
Qed.

Lemma rows_of_first_error html_parser col_map trs tr e :
  tr ∈ trs -> row_of html_parser col_map tr = inl e ->
  exists tr' e', tr' ∈ trs /\ row_of html_parser col_map tr' = inl e'
                 /\ rows_of html_parser col_map trs = inl e'.
Proof.
  induction trs as [|t trs IH]; intros Htr He; [by apply elem_of_nil in Htr|].
  cbn [rows_of].
  destruct (row_of html_parser col_map t) as [e'|r] eqn:Et.
  - exists t, e'. split; [by left|done].
  - apply elem_of_cons in Htr as [->|Htr]; [congruence|].
    destruct (IH Htr He) as (tr' & e' & Hin & Hrow & Hrows).
    exists tr', e'. split; [by right|]. split; [done|].
    cbn [bind_error]. by rewrite Hrows.
Qed.

Lemma row_of_error html_parser col_map tr e :
  is_Some (col_map !! "id"%string) ->
  is_Some (col_map !! "front"%string) ->
  is_Some (col_map !! "back"%string) ->
  row_of html_parser col_map tr = inl e -> e = IndexError.
Proof.
  intros [i Hi] [j Hj] [k Hk]. unfold row_of.
  destruct (find_all (lit "td") (node_kids tr)) as [|c l]; [done|].
  unfold cell_at, bind_error. rewrite Hi, Hj, Hk.
  destruct ((c :: l) !! i); [|by intros [= <-]].
  destruct ((c :: l) !! j); [|by intros [= <-]].
  destruct ((c :: l) !! k); [|by intros [= <-]].
  destruct (col_map !! "tags"%string) as [t|]; [|done].
  destruct ((c :: l) !! t); [done|by intros [= <-]].
Qed.

(** C2, as amended. Of the four columns only [tags] is optional.

    When the header row gives no [id], no [front] or no [back] column
    and a row of the body has cells, the run fails on the first such row,
    before the output file is opened: on the missing key, or on an index
    when that row is too short for a column looked up before the missing
    one; without an [id] column it is the missing key.

    When the header row gives the three columns, collecting the rows can
    only fail on an index, and without a [tags] column every collected
    row has empty Tags.  For a table whose rows are flat: if every row
    with cells has a cell at each mapped index, the run collects one row
    for each row with cells, in document order, made of the cells of that
    row, with empty Tags when there is no [tags] column, and hands them
    to the writer; if a row with cells lacks a cell at a mapped index,
    the run fails on an index and leaves the output file as it was. *)
Theorem tags_optional_id_required
  (html_parser : str -> forest) (unicode_lower : str -> nat -> str)
  (html : str) (out : file) (table tbody : node)
  (col_map : gmap string nat) :
  NoDup (uids (html_parser html)) ->
  parse_table unicode_lower (html_parser html) = inr (table, col_map) ->
  find (lit "tbody") (node_kids table) = Some tbody ->
  let trs := find_all (lit "tr") (node_kids tbody) in
  let run := convert_file html_parser unicode_lower html out in
  (col_map !! "id"%string = None \/ col_map !! "front"%string = None
   \/ col_map !! "back"%string = None ->
   (exists tr, tr ∈ trs /\ find_all (lit "td") (node_kids tr) <> []) ->
   exists e,
     (e = KeyError \/ e = IndexError)
     /\ (col_map !! "id"%string = None -> e = KeyError)
     /\ run = (inl e, out))
  /\ (forall i j k,
        col_map !! "id"%string = Some i ->
        col_map !! "front"%string = Some j ->
        col_map !! "back"%string = Some k ->
        (forall e, collect_rows html_parser unicode_lower html = inl e ->
                   e = IndexError)
        /\ (forall rows_out,
              col_map !! "tags"%string = None ->
              collect_rows html_parser unicode_lower html = inr rows_out ->
              Forall (fun r => row_tags r = []) rows_out)
        /\ (forallb flat_row trs = true ->
            let complete := complete_row i j k (col_map !! "tags"%string) in
            let rows_out :=
              map (emitted_row html_parser i j k (col_map !! "tags"%string))
                  (List.filter row_has_cells trs) in
            ((forall tr, tr ∈ trs -> row_has_cells tr = true ->
                         complete tr = true) ->
             collect_rows html_parser unicode_lower html = inr rows_out
             /\ run = write_csv rows_out out
             /\ (col_map !! "tags"%string = None ->
                 Forall (fun r => row_tags r = []) rows_out))
            /\ ((exists tr, tr ∈ trs /\ row_has_cells tr = true
                            /\ complete tr = false) ->
                run = (inl IndexError, out)))).
Proof.
  intros Hwf Hparse Hbody trs run.
  split; [by apply (convert_file_missing_required _ _ _ _ table tbody)|].
  intros i j k Hi Hj Hk.
  assert (forall e, collect_rows html_parser unicode_lower html = inl e ->
                    e = IndexError) as Herr.
  { intros e. unfold collect_rows. rewrite Hparse. cbn [bind_error].
    rewrite Hbody. apply rows_loop_errors; by eexists. }
  split; [exact Herr|]. split.
  { intros rows_out Ht. unfold collect_rows. rewrite Hparse.
    cbn [bind_error]. rewrite Hbody. by apply rows_loop_no_tags. }
  intros Hflat complete rows_out.
  pose proof (collect_rows_flat html_parser unicode_lower html table tbody
                col_map Hwf Hparse Hbody Hflat) as Hrows.
  fold trs in Hrows. split.
  - intros Hall.
    assert (collect_rows html_parser unicode_lower html = inr rows_out) as Hc.
    { rewrite Hrows. apply rows_of_complete; try done.
      apply Forall_forall. intros tr Htr. by apply Hall. }
    split; [exact Hc|]. split.
    + unfold run, convert_file. by rewrite Hc.
    + intros Ht. unfold rows_out. rewrite Ht. apply Forall_forall.
      intros r Hr. by apply list_elem_of_fmap in Hr as (tr & -> & _).
  - intros (tr & Htr & Hcells & Hshort).
    pose proof (row_of_short html_parser col_map tr i j k Hi Hj Hk
                  Hcells Hshort) as Hrow.
    destruct (rows_of_first_error html_parser col_map trs tr _ Htr Hrow)
      as (tr' & e' & _ & _ & Hfail).
    rewrite <- Hrows in Hfail. unfold run, convert_file. rewrite Hfail.
    by rewrite (Herr e' Hfail).
Qed.

(** A table without a [tags] column: its two rows with cells are written,
    with empty Tags, and the row without cells is passed over. *)
Lemma tags_optional_id_required_witness :
  let soup := table_of 1 [th 10 "Front"; th 11 "Back"; th 12 "Notion-ID"]
                [Elem 20 (lit "tr") []
                   [td 21 [Text (lit "q1")]; td 22 [Text (lit "a1")];
                    td 23 [Text (lit "n1")]];
                 Elem 30 (lit "tr") [] [];
                 Elem 40 (lit "tr") []
                   [td 41 [Text (lit "q2")]; td 42 [Text (lit "a2")];
                    td 43 [Text (lit "n2")]]] in
  collect_rows (fun _ => soup) no_wide_case []
  = inr [ {| row_id := lit "n1"; row_front := lit "q1";
             row_back := lit "a1"; row_tags := [] |};
          {| row_id := lit "n2"; row_front := lit "q2";
             row_back := lit "a2"; row_tags := [] |} ]
  /\ convert_file (fun _ => soup) no_wide_case [] None
     = (inr tt,
        Some (lit "Notion-ID,Front,Back,Tags" ++ CRLF
              ++ lit "n1,q1,a1," ++ CRLF ++ lit "n2,q2,a2," ++ CRLF)).
Proof.
  intros soup.
  assert (NoDup (uids soup)) as Hwf by distinct_uids.
  pose (table := hd (Text []) soup).
  pose (tbody := hd (Text []) (tl (node_kids table))).
  destruct (proj2 (tags_optional_id_required (fun _ => soup) no_wide_case
              [] None table tbody
              (col_map_of [lit "front"; lit "back"; lit "notion-id"])
              Hwf eq_refl eq_refl) 2 0 1 eq_refl eq_refl eq_refl)
    as (_ & _ & Hflat).
  destruct (Hflat eq_refl) as [Hrows _].
  destruct Hrows as (Hc & Hrun & _).
  { intros tr Htr Hcells. vm_compute in Htr.
    repeat (apply elem_of_cons in Htr as [->|Htr];
            [first [reflexivity|by vm_compute in Hcells]|]).
    by apply elem_of_nil in Htr. }
  split.
  - rewrite Hc. vm_compute. reflexivity.
  - rewrite Hrun. vm_compute. reflexivity.
Defined.

(** C2, as stated, fails.  With [front] and [back] columns but no [id]
    column, a row with cells is not emitted: the run fails on it with a
    missing key and writes nothing.  With the three columns and no [tags]
    column, a row that is too short makes the run fail, and the complete
    row before it is not written either.  And a row that lies in the
    back cell of another row is not emitted: it is unwrapped when that
    cell is sanitized, and has no cells left when its turn comes. *)
Lemma missing_id_row_not_emitted :
  let soup := table_of 1 [th 10 "Front"; th 11 "Back"]
                [Elem 20 (lit "tr") []
                   [td 21 [Text (lit "q")]; td 22 [Text (lit "a")]]] in
  let short := table_of 1 [th 10 "Front"; th 11 "Back"; th 12 "Notion-ID"]
                [Elem 20 (lit "tr") []
                   [td 21 [Text (lit "q1")]; td 22 [Text (lit "a1")];
                    td 23 [Text (lit "n1")]];
                 Elem 30 (lit "tr") []
                   [td 31 [Text (lit "q2")]; td 32 [Text (lit "a2")]]] in
  let inner := Elem 30 (lit "tr") []
                 [td 31 [Text (lit "x")]; td 32 [Text (lit "y")];
                  td 33 [Text (lit "z")]] in
  let nested := table_of 1 [th 10 "Notion-ID"; th 11 "Front"; th 12 "Back"]
                 [Elem 20 (lit "tr") []
                    [td 21 [Text (lit "n1")]; td 22 [Text (lit "q1")];
                     td 23 [Elem 24 (lit "table") [] [inner]]]] in
  (exists table col_map,
     parse_table no_wide_case soup = inr (table, col_map)
     /\ col_map !! "front"%string = Some 0
     /\ col_map !! "back"%string = Some 1
     /\ col_map !! "id"%string = None)
  /\ (forall out,
        convert_file (fun _ => soup) no_wide_case [] out = (inl KeyError, out))
  /\ ~ (forall html_parser unicode_lower html out table col_map,
          parse_table unicode_lower (html_parser html) = inr (table, col_map) ->
          is_Some (col_map !! "front"%string) ->
          is_Some (col_map !! "back"%string) ->
          (forall tbody tr,
             find (lit "tbody") (node_kids table) = Some tbody ->
             tr ∈ find_all (lit "tr") (node_kids tbody) ->
             length (find_all (lit "td") (node_kids tr)) = 2) ->
          exists rows_out f,
            collect_rows html_parser unicode_lower html = inr rows_out
            /\ convert_file html_parser unicode_lower html out = (inr tt, f))
  /\ (forall out,
        convert_file (fun _ => short) no_wide_case [] out
        = (inl IndexError, out))
  /\ (exists tbody,
        find (lit "tbody") nested = Some tbody
        /\ inner ∈ find_all (lit "tr") (node_kids tbody)
        /\ row_has_cells inner = true
        /\ collect_rows (fun _ => nested) no_wide_case []
           = inr [ {| row_id := lit "n1"; row_front := lit "q1";
                      row_back := lit "xyz"; row_tags := [] |} ]).
Proof.
  intros soup short inner nested.
  assert (exists table col_map,
            parse_table no_wide_case soup = inr (table, col_map)
            /\ col_map !! "front"%string = Some 0
            /\ col_map !! "back"%string = Some 1
            /\ col_map !! "id"%string = None) as Hparse.
  { eexists _, (col_map_of [lit "front"; lit "back"]).
    split; [reflexivity|by vm_compute]. }
  assert (forall out, convert_file (fun _ => soup) no_wide_case [] out
                      = (inl KeyError, out))
    as Hrun by (intros out; by vm_compute).
  split; [exact Hparse|]. split; [exact Hrun|].
  split; [|split; [intros out; by vm_compute|]].
  - intros H. destruct Hparse as (table & col_map & Hp & Hf & Hb & _).
    destruct (H (fun _ => soup) no_wide_case [] None table col_map Hp)
      as (r & f & _ & Hr).
    + by rewrite Hf.
    + by rewrite Hb.
    + injection Hp as <- _. intros tbody tr Htb Htr.
      vm_compute in Htb. injection Htb as <-.
      vm_compute in Htr. apply list_elem_of_singleton in Htr as ->. reflexivity.
    + rewrite Hrun in Hr. discriminate.
  - eexists. split; [reflexivity|].
    split; [|split; [by vm_compute|by vm_compute]].
    vm_compute. right. left.
Qed.


(** * Further properties *)

(** ** The color-class normalizer: what it leaves alone *)

Lemma attr_get_pop_ne k k' a :
  k <> k' -> attr_get k (attr_pop k' a) = attr_get k a.
Proof.
  intros Hne. induction a as [|[k0 v0] a IH]; [done|].
  cbn [attr_pop attr_get]. unfold str_eqb.
  case_bool_decide as E1; subst.
  - by rewrite bool_decide_eq_false_2.
  - cbn [attr_get]. unfold str_eqb. by rewrite IH.
Qed.

Lemma merge_style_other k a rules :
  k <> lit "style" -> attr_get k (merge_style a rules) = attr_get k a.
Proof. intros. unfold merge_style. by apply attr_get_set_ne. Qed.

Lemma put_classes_other k kept a :
  k <> lit "class" -> attr_get k (put_classes kept a) = attr_get k a.
Proof.
  intros. unfold put_classes.
  destruct kept; [by apply attr_get_pop_ne|by apply attr_get_set_ne].
Qed.

Lemma convert_color_classes_no_class a :
  (forall c cs, attr_get (lit "class") a <> Some (AList (c :: cs))) ->
  convert_color_classes_to_inline a = a.
Proof.
  intros H. unfold convert_color_classes_to_inline.
  destruct (attr_get (lit "class") a) as [[s|[|c cs]]|] eqn:E; try done.
  by destruct (H c cs).
Qed.

(** The normalizer touches the [class] and [style] attributes only, and
    it returns unchanged an element none of whose class tokens is a color
    token, whatever its style is. *)
Theorem convert_color_classes_frame (a : attrs) :
  (forall k, k <> lit "class" -> k <> lit "style" ->
     attr_get k (convert_color_classes_to_inline a) = attr_get k a)
  /\ ((forall cs, attr_get (lit "class") a = Some (AList cs) ->
         Forall (fun c => is_color_class c = false) cs) ->
      convert_color_classes_to_inline a = a).
Proof.
  split.
  - intros k Hc Hs.
    destruct (attr_get (lit "class") a) as [[s|[|c cs]]|] eqn:E;
      try (rewrite convert_color_classes_no_class; [done|congruence]).
    rewrite (convert_color_classes_unfold a c cs E).
    rewrite put_classes_other by done.
    generalize (omap class_color (c :: cs)). intros colors. clear E.
    revert a. induction colors as [|col colors IH]; intros a; [done|].
    cbn [fold_left]. rewrite IH. unfold add_color.
    by apply merge_style_other.
  - intros H.
    destruct (attr_get (lit "class") a) as [[s|[|c cs]]|] eqn:E;
      try (rewrite convert_color_classes_no_class; [done|congruence]).
    rewrite (convert_color_classes_unfold a c cs E).
    specialize (H _ eq_refl).
    assert (Forall (fun x => negb (is_color_class x) = true) (c :: cs)) as H'.
    { eapply Forall_impl; [exact H|]. by intros x ->. }
    rewrite filter_all by done. rewrite omap_class_color_none by done.
    cbn [fold_left put_classes]. by apply attr_set_same.
Qed.

(** ** The pattern of the color classes *)

Lemma span_by_spec p s a b :
  span_by p s = (a, b) ->
  s = a ++ b /\ forallb p a = true
  /\ match b with [] => True | c :: _ => p c = false end.
Proof.
  revert a b. induction s as [|c s IH]; intros a b; simpl.
  - by intros [= <- <-].
  - destruct (p c) eqn:Hc.
    + destruct (span_by p s) as [a' b'] eqn:E. intros [= <- <-].
      destruct (IH a' b' eq_refl) as (-> & Ha & Hb).
      simpl. by rewrite Hc, Ha.
    + intros [= <- <-]. by rewrite Hc.
Qed.

Lemma span_by_app p a b :
  forallb p a = true ->
  match b with [] => True | c :: _ => p c = false end ->
  span_by p (a ++ b) = (a, b).
Proof.
  intros Ha Hb. induction a as [|c a IH]; simpl.
  - destruct b as [|d b]; [done|]. simpl. by rewrite Hb.
  - simpl in Ha. apply andb_prop in Ha as [Hc Ha].
    by rewrite Hc, IH.
Qed.

Lemma key_to_end_spec s key :
  key_to_end s = Some key <->
  key <> [] /\ forallb is_key_char key = true
  /\ (s = key \/ s = key ++ [newline]).
Proof.
  unfold key_to_end. split.
  - destruct (span_by is_key_char s) as [k rest] eqn:E.
    apply span_by_spec in E as (-> & Hk & _).
    destruct k as [|c k]; [done|]. unfold str_eqb.
    case_bool_decide as E1; [|case_bool_decide as E2]; cbn [orb];
      [| |done]; subst rest; intros [= <-];
      (split; [done|]); (split; [done|]).
    + left. by rewrite app_nil_r.
    + by right.
  - intros (Hne & Hk & [-> | ->]).
    + rewrite span_by_all by done.
      destruct key as [|c k]; [congruence|]. unfold str_eqb.
      by rewrite bool_decide_eq_true_2.
    + rewrite span_by_app by done.
      destruct key as [|c k]; [congruence|]. unfold str_eqb.
      rewrite (bool_decide_eq_true_2 ([newline] = [newline])) by done.
      by rewrite orb_true_r.
Qed.

(** The normalizer takes a class token for a color token exactly when
    the token is [highlight-] or [block-color-] followed by one or more
    of the characters [a] to [z] and [_], up to the end of the token (or
    up to a newline that ends it); the key is that run of characters.
    No other token is ever removed from a class list. *)
Theorem color_class_key_spec (cls key : str) :
  color_class_key cls = Some key <->
  key <> [] /\ forallb is_key_char key = true
  /\ (cls = lit "highlight-" ++ key
      \/ cls = lit "highlight-" ++ key ++ [newline]
      \/ cls = lit "block-color-" ++ key
      \/ cls = lit "block-color-" ++ key ++ [newline]).
Proof.
  unfold color_class_key. split.
  - destruct (strip_prefix (lit "highlight-") cls) as [rest|] eqn:E1.
    { apply strip_prefix_Some in E1 as ->. rewrite key_to_end_spec.
      intros (? & ? & [-> | ->]); auto. }
    destruct (strip_prefix (lit "block-color-") cls) as [rest|] eqn:E2;
      [|done].
    apply strip_prefix_Some in E2 as ->. rewrite key_to_end_spec.
    intros (? & ? & [-> | ->]); auto 6.
  - intros (Hne & Hk & [-> | [-> | [-> | ->]]]).
    + rewrite strip_prefix_app. apply key_to_end_spec. auto.
    + rewrite strip_prefix_app. apply key_to_end_spec. auto.
    + change (strip_prefix (lit "highlight-") (lit "block-color-" ++ key))
        with (@None str).
      rewrite strip_prefix_app. apply key_to_end_spec. auto.
    + change (strip_prefix (lit "highlight-")
                (lit "block-color-" ++ key ++ [newline]))
        with (@None str).
      rewrite strip_prefix_app. apply key_to_end_spec. auto.
Qed.

(** ** The tags that come out *)

Lemma tags_from_text_tokens raw :
  tags_from_text raw
  = join (lit " ")
      (dedup_first
         (List.filter nonempty
            (map (fun t => sub_runs is_space (lit "-") (strip t))
               (split_runs is_tag_sep raw)))).
Proof.
  unfold tags_from_text.
  pose proof (tags_loop
    (map strip (List.filter (fun t => nonempty (strip t))
                  (split_runs is_tag_sep raw))) [] ∅) as L.
  destruct (fold_left tags_step _ _) as [clean seen].
  cbn [fst app] in L. rewrite L by set_solver.
  rewrite tag_tokens_described by apply split_runs_pieces.
  f_equal. apply filter_all.
  apply Forall_forall. intros y _. unfold notin.
  by rewrite bool_decide_eq_false_2 by set_solver.
Qed.

Lemma dedup_first_Forall (P : str -> Prop) l :
  Forall P l -> Forall P (dedup_first l).
Proof.
  induction 1 as [|x l Hx _ IH]; [constructor|].
  cbn [dedup_first]. constructor; [done|]. by apply filter_Forall_keep.
Qed.

Lemma NoDup_filter_keep {A} (f : A -> bool) (l : list A) :
  NoDup l -> NoDup (List.filter f l).
Proof.
  induction 1 as [|x l Hx _ IH]; simpl; [constructor|].
  destruct (f x); [|done]. constructor; [|done].
  intros H. apply Hx. apply list_elem_of_In in H. apply filter_In in H as [H _].
  by apply list_elem_of_In.
Qed.

Lemma dedup_first_NoDup l : NoDup (dedup_first l).
Proof.
  induction l as [|x l IH]; [constructor|].
  cbn [dedup_first]. constructor; [|by apply NoDup_filter_keep].
  intros H. apply list_elem_of_In, filter_In in H as [_ H].
  unfold str_eqb in H. by rewrite bool_decide_eq_true_2 in H.
Qed.

Lemma sub_runs_none_left p r s :
  Forall (fun c => p c = false) r ->
  Forall (fun c => p c = false) (sub_runs p r s).
Proof.
  intros Hr. induction s as [|c s IH]; simpl; [constructor|].
  destruct (p c) eqn:Hc.
  - destruct s as [|d s']; [by rewrite app_nil_r|].
    destruct (p d); [done|]. by apply Forall_app.
  - by constructor.
Qed.

(** Whatever the text of the tags cell is, the Tags string is a list of
    tokens joined by single spaces in which no token is empty, no token
    occurs twice, and no token holds whitespace, a comma, a semicolon or a
    newline: each token is one tag for Anki. *)
Theorem tags_are_single_tokens (raw : str) :
  exists toks,
    tags_from_text raw = join (lit " ") toks
    /\ NoDup toks
    /\ Forall (fun t => t <> []
                        /\ Forall (fun c => is_space c = false
                                            /\ is_tag_sep c = false) t) toks.
Proof.
  eexists. split; [apply tags_from_text_tokens|].
  split; [apply dedup_first_NoDup|].
  apply dedup_first_Forall. apply Forall_forall. intros t Ht.
  apply list_elem_of_In, filter_In in Ht as [Ht Hne].
  split; [by destruct t|].
  apply in_map_iff in Ht as (piece & <- & Hp).
  pose proof (split_runs_pieces is_tag_sep raw) as Hpieces.
  rewrite Forall_forall in Hpieces.
  specialize (Hpieces piece (proj2 (list_elem_of_In _ _) Hp)).
  apply Forall_and. split.
  - apply sub_runs_none_left. by repeat constructor.
  - apply sub_runs_Forall; [by repeat constructor|].
    by apply strip_by_Forall.
Qed.

(** ** The column map: range and keys *)

Lemma header_rule_keys name k :
  header_rule name = Some k ->
  k = "id"%string \/ k = "front"%string \/ k = "back"%string
  \/ k = "tags"%string.
Proof.
  unfold header_rule.
  repeat match goal with
         | |- context [if ?b then _ else _] => destruct b
         end; intros [= <-]; auto.
Qed.

(** The column map only has the keys [id], [front], [back] and [tags];
    every index in it is the position of a header cell; and two fields
    never share an index. *)
Theorem col_map_of_invariants (headers : list str) (k : string) (i : nat) :
  col_map_of headers !! k = Some i ->
  i < length headers
  /\ (k = "id"%string \/ k = "front"%string \/ k = "back"%string
      \/ k = "tags"%string)
  /\ (forall k', col_map_of headers !! k' = Some i -> k' = k).
Proof.
  intros H. apply col_map_of_lookup in H as [(name & Hl & Hr) _].
  split; [by eapply lookup_lt_Some|].
  split; [by eapply header_rule_keys|].
  intros k' H'. apply col_map_of_lookup in H' as [(name' & Hl' & Hr') _].
  congruence.
Qed.

Lemma col_map_of_invariants_witness :
  2 < 3
  /\ ("tags"%string = "id"%string \/ "tags"%string = "front"%string
      \/ "tags"%string = "back"%string \/ "tags"%string = "tags"%string)
  /\ (forall k',
        col_map_of [lit "front"; lit "back"; lit "my tags"] !! k' = Some 2 ->
        k' = "tags"%string).
Proof.
  apply (col_map_of_invariants [lit "front"; lit "back"; lit "my tags"]
           "tags"%string 2).
  vm_compute. reflexivity.
Defined.

(** ** How a run can fail *)

(** A run fails in one of four ways.  It fails on a method of [None]
    exactly when the document has no table, or its first table has no
    header section or no body section.  It fails on a missing key only
    when the header row gives no [id], no [front] or no [back] column: a
    header row without a [tags] column never makes a run fail.  These
    failures, and the failure on a row with too few cells, leave the
    output file as it was.  The fourth failure is that of the writer, on
    a row that UTF-8 cannot encode: it leaves the header line and the
    lines of the rows before that row in the output file. *)
Theorem convert_file_errors
  (html_parser : str -> forest) (unicode_lower : str -> nat -> str)
  (html : str) (out : file) :
  let soup := html_parser html in
  (convert_file html_parser unicode_lower html out = (inl AttributeError, out) <->
   find (lit "table") soup = None
   \/ exists table, find (lit "table") soup = Some table
        /\ (find (lit "thead") (node_kids table) = None
            \/ find (lit "tbody") (node_kids table) = None))
  /\ (convert_file html_parser unicode_lower html out = (inl KeyError, out) ->
      exists table col_map,
        parse_table unicode_lower soup = inr (table, col_map)
        /\ (col_map !! "id"%string = None \/ col_map !! "front"%string = None
            \/ col_map !! "back"%string = None))
  /\ (forall e out',
        convert_file html_parser unicode_lower html out = (inl e, out') ->
        (e <> UnicodeEncodeError /\ out' = out)
        \/ (e = UnicodeEncodeError
            /\ exists pre r post,
                 collect_rows html_parser unicode_lower html
                 = inr (pre ++ r :: post)
                 /\ Forall (fun r => row_encodable r = true) pre
                 /\ row_encodable r = false
                 /\ out' = Some (HEADER_LINE ++ flat_map row_line pre))).
Proof.
  intros soup. unfold convert_file, collect_rows, parse_table. fold soup.
  destruct (find (lit "table") soup) as [table|] eqn:Ht.
  2:{ cbn [bind_error]. split; [split; [by left|done]|].
      split; [done|]. intros e out' [= <- <-]. by left. }
  destruct (find (lit "thead") (node_kids table)) as [thead|] eqn:Hh.
  2:{ cbn [bind_error]. split.
      - split; [|done]. intros _. right. exists table. auto.
      - split; [done|]. intros e out' [= <- <-]. by left. }
  cbn [bind_error].
  destruct (find (lit "tbody") (node_kids table)) as [tbody|] eqn:Hb.
  2:{ split.
      - split; [|done]. intros _. right. exists table. auto.
      - split; [done|]. intros e out' [= <- <-]. by left. }
  destruct (rows_loop html_parser _ _ soup []) as [e|rows_out] eqn:Hl.
  2:{ destruct (first_unencodable rows_out)
        as [Hall|(pre & r & post & -> & Hpre & Hr)].
      - rewrite write_csv_all by done.
        split; [split; [done|]|by split].
        intros [?|(t & [= <-] & [?|?])]; congruence.
      - rewrite write_csv_stops by done.
        split; [split; [done|]|split; [done|]].
        + intros [?|(t & [= <-] & [?|?])]; congruence.
        + intros e out' [= <- <-]. right. split; [done|].
          by exists pre, r, post. }
  apply rows_loop_error in Hl as [->|[-> Hmiss]].
  - split; [split; [done|]|].
    + intros [?|(t & [= <-] & [?|?])]; congruence.
    + split; [done|]. intros e out' [= <- <-]. by left.
  - split; [split; [done|]|].
    + intros [?|(t & [= <-] & [?|?])]; congruence.
    + split; [|intros e out' [= <- <-]; by left].
      intros _. by eexists _, _.
Qed.

(** ** What the rewriting of a cell keeps *)

Lemma strings_of_map_where sel g f :
  strings_of (map (map_where sel g) f) = strings_of f.
Proof.
  unfold strings_of. induction f as [|n f IHf]; [done|].
  cbn [map flat_map]. rewrite IHf. f_equal. clear IHf.
  induction n as [s|u nm a kids IH|c s] using node_forest_ind; [done| |done].
  assert (flat_map node_strings (map (map_where sel g) kids)
          = flat_map node_strings kids) as Hk.
  { induction IH as [|k kids Hk _ IHk]; [done|].
    cbn [map flat_map]. by rewrite Hk, IHk. }
  cbn [map_where]. destruct (sel nm); [destruct (g nm a)|]; done.
Qed.

Lemma strings_of_sanitize_tree_rec cell :
  strings_of (sanitize_tree_rec cell) = strings_of cell.
Proof.
  unfold sanitize_tree_rec.
  by rewrite strings_of_map_where, strings_of_splice, !strings_of_map_where.
Qed.

Lemma text_strings_of_splice f :
  text_strings_of (flat_map splice f) = text_strings_of f.
Proof.
  induction f as [|n f IHf]; [done|].
  cbn [flat_map]. unfold text_strings_of in *.
  rewrite flat_map_app. cbn [flat_map].
  rewrite IHf. f_equal. clear IHf.
  induction n as [s|u nm a kids IH|c s] using node_forest_ind; [done| |done].
  assert (flat_map node_text_strings (flat_map splice kids)
          = flat_map node_text_strings kids) as Hk.
  { induction IH as [|k kids Hk _ IHk]; [done|].
    cbn [flat_map]. by rewrite flat_map_app, Hk, IHk. }
  cbn [splice node_text_strings]. destruct (allowed nm); [|done].
  cbn [flat_map node_text_strings]. by rewrite app_nil_r.
Qed.

Lemma text_strings_of_map_where sel g f :
  text_strings_of (map (map_where sel g) f) = text_strings_of f.
Proof.
  unfold text_strings_of. induction f as [|n f IHf]; [done|].
  cbn [map flat_map]. rewrite IHf. f_equal. clear IHf.
  induction n as [s|u nm a kids IH|c s] using node_forest_ind; [done| |done].
  assert (flat_map node_text_strings (map (map_where sel g) kids)
          = flat_map node_text_strings kids) as Hk.
  { induction IH as [|k kids Hk _ IHk]; [done|].
    cbn [map flat_map]. by rewrite Hk, IHk. }
  cbn [map_where]. destruct (sel nm); [destruct (g nm a)|]; done.
Qed.

Lemma text_strings_of_sanitize_tree_rec cell :
  text_strings_of (sanitize_tree_rec cell) = text_strings_of cell.
Proof.
  unfold sanitize_tree_rec.
  by rewrite text_strings_of_map_where, text_strings_of_splice,
       !text_strings_of_map_where.
Qed.

(** The rewriting of a cell in rich mode keeps the strings of the cell:
    the same strings in the same order, and the same among them are
    those that [get_text] reads (a string keeps its class when the tag
    around it is unwrapped).  So the plain text of a cell, and the tags
    read from it, are the same before and after the cell was sanitized in
    place. *)
Theorem sanitize_tree_keeps_text (cell : forest) :
  NoDup (uids cell) ->
  strings_of (sanitize_tree cell) = strings_of cell
  /\ text_strings_of (sanitize_tree cell) = text_strings_of cell
  /\ (forall sep,
        get_text_strip sep (sanitize_tree cell) = get_text_strip sep cell)
  /\ (forall html_parser,
        sanitize_inline_html html_parser (sanitize_tree cell) true
        = sanitize_inline_html html_parser cell true)
  /\ tags_from_cell (sanitize_tree cell) = tags_from_cell cell.
Proof.
  intros Hwf.
  split.
  { rewrite sanitize_tree_structural by done.
    apply strings_of_sanitize_tree_rec. }
  assert (text_strings_of (sanitize_tree cell) = text_strings_of cell) as H.
  { rewrite sanitize_tree_structural by done.
    apply text_strings_of_sanitize_tree_rec. }
  split; [done|].
  assert (forall sep,
            get_text_strip sep (sanitize_tree cell) = get_text_strip sep cell)
    as Hg by (intros sep; unfold get_text_strip; by rewrite H).
  split; [done|]. split.
  - intros p. unfold sanitize_inline_html. apply Hg.
  - unfold tags_from_cell. by rewrite Hg.
Qed.

(** A cell with ruby text: after the sanitizing the annotation stands
    beside the base text, without its tags, and is still left out of the
    plain text. *)
Lemma sanitize_tree_keeps_text_witness :
  let cell :=
    [Elem 1 (lit "ruby") []
       [Text (lit "kan");
        Elem 2 (lit "rp") [] [Special RubyParenthesisString (lit "(")];
        Elem 3 (lit "rt") [] [Special RubyTextString (lit "ji")];
        Elem 4 (lit "rp") [] [Special RubyParenthesisString (lit ")")]];
     Text (lit " x")] in
  NoDup (uids cell)
  /\ sanitize_tree cell
     = [Text (lit "kan"); Special RubyParenthesisString (lit "(");
        Special RubyTextString (lit "ji");
        Special RubyParenthesisString (lit ")"); Text (lit " x")]
  /\ get_text_strip (lit " ") cell = lit "kan x"
  /\ get_text_strip (lit " ") (sanitize_tree cell) = lit "kan x".
Proof.
  intros cell. assert (NoDup (uids cell)) as H by distinct_uids.
  split; [exact H|]. split; [by vm_compute|]. split; [by vm_compute|].
  rewrite (proj1 (proj2 (proj2 (sanitize_tree_keeps_text cell H)))).
  by vm_compute.
Defined.

(** ** The elements of a sanitized cell *)

Lemma sanitize_tree_rec_origin cell n' :
  n' ∈ elems_of (sanitize_tree_rec cell) ->
  exists u nm a kids,
    Elem u nm a kids ∈ elems_of cell
    /\ node_uid n' = u
    /\ node_name n' = head_name nm
    /\ node_attrs n' = strip_background_attrs (head_attrs nm a).
Proof.
  intros H. apply sanitize_tree_rec_elems in H as (n0 & Hn0 & ->).
  destruct (elems_of_is_elem _ _ Hn0) as (u & nm & a & kids & ->).
  exists u, nm, a, kids. split; [done|].
  unfold head_name, head_attrs. cbn [map_where]. unfold str_eqb.
  case_bool_decide as Hmark.
  { cbn [map_where]. rewrite bool_decide_eq_true_2 by done.
    cbn [map_where splice_elem]. by rewrite bool_decide_eq_false_2. }
  cbn [map_where]. case_bool_decide as Hspan.
  { cbn [map_where]. subst nm. by rewrite bool_decide_eq_false_2. }
  cbn [map_where]. by case_bool_decide.
Qed.

Lemma strip_background_attrs_style a v :
  attr_get (lit "style") (strip_background_attrs a) = Some v ->
  exists v0, attr_get (lit "style") a = Some v0
             /\ v = AStr (strip_background (attr_text v0)).
Proof.
  unfold strip_background_attrs.
  destruct (attr_get (lit "style") a) as [v0|] eqn:E; [|by rewrite E].
  rewrite attr_get_set. intros [= <-]. by exists v0.
Qed.

Lemma strip_background_attrs_other a k :
  k <> lit "style" ->
  attr_get k (strip_background_attrs a) = attr_get k a.
Proof.
  intros. unfold strip_background_attrs.
  destruct (attr_get (lit "style") a); [|done]. by apply attr_get_set_ne.
Qed.

Lemma convert_color_classes_clean a cs :
  attr_get (lit "class") (convert_color_classes_to_inline a)
  = Some (AList cs) ->
  Forall (fun c => is_color_class c = false) cs.
Proof.
  destruct (attr_get (lit "class") a) as [[s|[|c l]]|] eqn:E;
    try (rewrite convert_color_classes_no_class by congruence;
         rewrite E; intros [= <-]; constructor);
    try (rewrite convert_color_classes_no_class by congruence;
         by rewrite E).
  rewrite (convert_color_classes_unfold a c l E).
  pose proof (filter_Forall (fun x => negb (is_color_class x)) (c :: l)) as Hk.
  destruct (List.filter _ (c :: l)) as [|k ks]; cbn [put_classes].
  - by rewrite attr_get_pop.
  - rewrite attr_get_set. intros [= <-].
    eapply Forall_impl; [exact Hk|]. intros x Hx. simpl in Hx.
    by destruct (is_color_class x).
Qed.

(** In a sanitized cell no style holds a declaration that begins with
    [background-color], on any element; a span (a former mark too) has no
    color token left among its classes; and an element that is neither a
    mark, a span nor a link keeps its name and its attributes, but for the
    background declarations in its style: a color class on such an
    element is not turned into a style. *)
Theorem sanitized_elements (cell : forest) (n' : node) :
  NoDup (uids cell) ->
  n' ∈ elems_of (sanitize_tree cell) ->
  (forall v, attr_get (lit "style") (node_attrs n') = Some v ->
     Forall (fun d => is_background d = false) (decls (attr_text v)))
  /\ (node_name n' = lit "span" ->
      forall cs, attr_get (lit "class") (node_attrs n') = Some (AList cs) ->
        Forall (fun c => is_color_class c = false) cs)
  /\ exists u nm a kids,
       Elem u nm a kids ∈ elems_of cell /\ node_uid n' = u
       /\ (nm <> lit "mark" -> nm <> lit "span" -> nm <> lit "a" ->
           node_name n' = nm
           /\ node_attrs n' = strip_background_attrs a).
Proof.
  intros Hwf Hn'. rewrite sanitize_tree_structural in Hn' by done.
  apply sanitize_tree_rec_origin in Hn' as (u & nm & a & kids & H0 & Hu & Hnm & Ha).
  split.
  { intros v Hv. rewrite Ha in Hv.
    apply strip_background_attrs_style in Hv as (v0 & _ & ->).
    cbn [attr_text]. rewrite decls_strip_background.
    eapply Forall_impl; [apply filter_Forall|].
    intros d Hd. simpl in Hd. by destruct (is_background d). }
  split.
  { intros Hspan cs Hcs. rewrite Ha in Hcs.
    rewrite strip_background_attrs_other in Hcs by done.
    rewrite Hnm in Hspan. unfold head_name, head_attrs, str_eqb in *.
    case_bool_decide as Hmark; [by eapply convert_color_classes_clean|].
    subst nm. rewrite bool_decide_eq_true_2 in Hcs by done.
    by eapply convert_color_classes_clean. }
  exists u, nm, a, kids. split; [done|]. split; [done|].
  intros H1 H2 H3. rewrite Hnm, Ha.
  unfold head_name, head_attrs, str_eqb.
  by rewrite !bool_decide_eq_false_2.
Qed.

Lemma sanitized_elements_witness :
  let cell := [Elem 1 (lit "div")
                 [(lit "class", AList [lit "block-color-red"]);
                  (lit "style", AStr (lit "background-color:red;margin:0"))]
                 [Elem 2 (lit "mark")
                    [(lit "class", AList [lit "highlight-blue"])]
                    [Text (lit "t")]]] in
  let n' := Elem 1 (lit "div")
              [(lit "class", AList [lit "block-color-red"]);
               (lit "style", AStr (lit "margin:0"))]
              [Elem 2 (lit "span") [(lit "style", AStr (lit "color:blue"))]
                 [Text (lit "t")]] in
  NoDup (uids cell) /\ n' ∈ elems_of (sanitize_tree cell)
  /\ (forall v, attr_get (lit "style") (node_attrs n') = Some v ->
        Forall (fun d => is_background d = false) (decls (attr_text v))).
Proof.
  intros cell n'.
  assert (NoDup (uids cell)) as H by distinct_uids.
  assert (n' ∈ elems_of (sanitize_tree cell)) as Hn by (vm_compute; by left).
  split; [exact H|]. split; [exact Hn|].
  exact (proj1 (sanitized_elements cell n' H Hn)).
Defined.

(** ** Rows of a flat table *)

(** For a table whose rows are flat (no row below a row, no cell below a
    cell) the run reads every row from the tree as it was parsed: the
    rows come in document order, each made of the cells of its own table
    row, and the sanitizing of one back cell in place changes no other
    row.  The run fails at the first row that [row_of] fails on, leaving
    the output file as it was; else it opens the file and writes the
    header line and the rows, one for each row that has cells: all of
    them, when UTF-8 can encode every row. *)
Theorem flat_table_rows
  (html_parser : str -> forest) (unicode_lower : str -> nat -> str)
  (html : str) (out : file)
  (table tbody : node) (col_map : gmap string nat) :
  NoDup (uids (html_parser html)) ->
  parse_table unicode_lower (html_parser html) = inr (table, col_map) ->
  find (lit "tbody") (node_kids table) = Some tbody ->
  forallb flat_row (find_all (lit "tr") (node_kids tbody)) = true ->
  let trs := find_all (lit "tr") (node_kids tbody) in
  collect_rows html_parser unicode_lower html = rows_of html_parser col_map trs
  /\ convert_file html_parser unicode_lower html out
     = match rows_of html_parser col_map trs with
       | inl e => (inl e, out)
       | inr rows_out => write_csv rows_out out
       end
  /\ (forall rows_out,
        rows_of html_parser col_map trs = inr rows_out ->
        length rows_out = length (List.filter row_has_cells trs)
        /\ (Forall (fun r => row_encodable r = true) rows_out ->
            convert_file html_parser unicode_lower html out
            = (inr tt,
               Some (lit "Notion-ID,Front,Back,Tags" ++ CRLF
                     ++ flat_map (fun r => csv_line (row_fields r)) rows_out)))).
Proof.
  intros Hwf Hparse Hbody Hflat trs.
  assert (collect_rows html_parser unicode_lower html
          = rows_of html_parser col_map trs) as Hrows
    by (by eapply collect_rows_flat).
  split; [done|]. split.
  - unfold convert_file. by rewrite Hrows.
  - intros rows_out Hr. split; [by apply (rows_of_length html_parser col_map)|].
    intros Henc. unfold convert_file. rewrite Hrows, Hr.
    by rewrite write_csv_all.
Qed.

(** A row whose front cell holds ruby text: the annotation is left out
    of the plain front text, and the wrapper tags are left out of the
    back markup. *)
Lemma flat_table_rows_witness :
  let ruby u :=
    Elem u (lit "ruby") []
      [Text (lit "kan");
       Elem (u + 1) (lit "rp") [] [Special RubyParenthesisString (lit "(")];
       Elem (u + 2) (lit "rt") [] [Special RubyTextString (lit "ji")];
       Elem (u + 3) (lit "rp") [] [Special RubyParenthesisString (lit ")")]] in
  let trs :=
    [Elem 20 (lit "tr") []
       [td 21 [ruby 50; Text (lit " x")];
        td 22 [ruby 60; Text (lit " x")];
        td 24 [Text (lit "n1")]; td 25 [Text (lit "t, u v")]];
     Elem 30 (lit "tr") [] [];
     Elem 40 (lit "tr") []
       [td 41 [Text (lit "q2")]; td 42 [Text (lit "a2")];
        td 43 [Text (lit "n2")]; td 44 []]] in
  let soup :=
    table_of 1 [th 10 "Front"; th 11 "Back"; th 12 "Notion-ID"; th 13 "Tags"]
      trs in
  convert_file (fun _ => soup) no_wide_case [] None
  = (inr tt,
     Some (HEADER_LINE ++ lit "n1,kan x,kan(ji) x,t u-v" ++ CRLF
           ++ lit "n2,q2,a2," ++ CRLF)).
Proof.
  intros ruby trs soup.
  pose (tbody := Elem 4 (lit "tbody") [] trs).
  pose (table :=
    Elem 1 (lit "table") []
      [Elem 2 (lit "thead") []
         [Elem 3 (lit "tr") []
            [th 10 "Front"; th 11 "Back"; th 12 "Notion-ID"; th 13 "Tags"]];
       tbody]).
  assert (NoDup (uids soup)) as Hwf by distinct_uids.
  rewrite (proj1 (proj2 (flat_table_rows (fun _ => soup) no_wide_case [] None
    table tbody
    (col_map_of [lit "front"; lit "back"; lit "notion-id"; lit "tags"])
    Hwf eq_refl eq_refl eq_refl))).
  vm_compute. reflexivity.
Defined.

(** ** The string that rich mode returns *)

Lemma replace_char_free c new s :
  Forall (fun d => d <> c) new -> Forall (fun d => d <> c) (replace [c] new s).
Proof.
  intros Hnew. rewrite replace_char. induction s as [|d s IH]; [constructor|].
  cbn [flat_map]. apply Forall_app. split; [|done].
  destruct (N.eqb_spec c d) as [->|Hd]; [done|].
  constructor; [congruence|constructor].
Qed.

(** In rich mode the returned markup never holds a newline character:
    every newline, of the text or of a fenced block, has become a
    line-break tag.  And while the printed cell has no pair of fences (no
    fence, or an opening fence without a closing one) nothing is replaced
    and the parser is not used: the result is the printed cell with its
    newlines as line-break tags, a lone fence standing as it was. *)
Theorem rich_output_lines (html_parser : str -> forest) (cell : forest) :
  let tmp :=
    replace BR [newline]
      (replace (lit "<br />") BR
         (replace (lit "<br>") BR (decode_contents (sanitize_tree cell)))) in
  Forall (fun c => c <> newline) (sanitize_inline_html html_parser cell false)
  /\ (find_sub FENCE tmp = None
      \/ (exists before rest, find_sub FENCE tmp = Some (before, rest)
                              /\ find_sub FENCE rest = None) ->
      sanitize_inline_html html_parser cell false = replace [newline] BR tmp).
Proof.
  intros tmp. unfold sanitize_inline_html, sanitize_string. fold tmp. split.
  - apply replace_char_free. by vm_compute; repeat constructor.
  - intros [Hnone | (before & rest & H1 & H2)].
    + by rewrite sub_fences_none.
    + by rewrite (sub_fences_open _ _ before rest).
Qed.

(** ** Sanitizing twice *)

Lemma elems_of_in_cons n k f :
  n ∈ elems_of (k :: f) <-> n ∈ node_elems k \/ n ∈ elems_of f.
Proof. by rewrite elems_of_cons, elem_of_app. Qed.

Lemma map_where_fixed sel g f :
  (forall n, n ∈ elems_of f -> sel (node_name n) = true ->
     g (node_name n) (node_attrs n) = (node_name n, node_attrs n)) ->
  map (map_where sel g) f = f.
Proof.
  induction f as [|k f IHf]; intros H; [done|].
  cbn [map]. rewrite IHf.
  2:{ intros n Hn. apply H. rewrite elems_of_in_cons. by right. }
  f_equal. clear IHf.
  assert (forall n, n ∈ node_elems k -> sel (node_name n) = true ->
            g (node_name n) (node_attrs n) = (node_name n, node_attrs n)) as Hk.
  { intros n Hn. apply H. rewrite elems_of_in_cons. by left. }
  clear H.
  induction k as [s|u nm a kids IH|c s] using node_forest_ind; [done| |done].
  assert (map (map_where sel g) kids = kids) as Hkids.
  { rewrite Forall_forall in IH. clear -IH Hk.
    assert (forall k, k ∈ kids -> map_where sel g k = k) as Hall.
    { intros k Hkin. apply IH; [done|]. intros n Hn. apply Hk. right.
      fold (elems_of kids). by apply (elems_of_member k). }
    clear IH Hk. induction kids as [|k kids IHk]; [done|].
    cbn [map]. rewrite Hall by (by left). rewrite IHk; [done|].
    intros k' Hk'. apply Hall. by right. }
  cbn [map_where]. rewrite Hkids.
  destruct (sel nm) eqn:Hsel; [|done].
  specialize (Hk (Elem u nm a kids)). cbn [node_name node_attrs] in Hk.
  by rewrite Hk; [|by left|done].
Qed.

Lemma splice_fixed f :
  (forall n, n ∈ elems_of f -> allowed (node_name n) = true) ->
  flat_map splice f = f.
Proof.
  induction f as [|k f IHf]; intros H; [done|].
  cbn [flat_map]. rewrite IHf.
  2:{ intros n Hn. apply H. rewrite elems_of_in_cons. by right. }
  change (k :: f) with ([k] ++ f). f_equal. clear IHf.
  assert (forall n, n ∈ node_elems k -> allowed (node_name n) = true) as Hk.
  { intros n Hn. apply H. rewrite elems_of_in_cons. by left. }
  clear H.
  induction k as [s|u nm a kids IH|c s] using node_forest_ind; [done| |done].
  assert (flat_map splice kids = kids) as Hkids.
  { rewrite Forall_forall in IH. clear -IH Hk.
    assert (forall k, k ∈ kids -> splice k = [k]) as Hall.
    { intros k Hkin. apply IH; [done|]. intros n Hn. apply Hk. right.
      fold (elems_of kids). by apply (elems_of_member k). }
    clear IH Hk. induction kids as [|k kids IHk]; [done|].
    cbn [flat_map]. rewrite Hall by (by left). rewrite IHk; [done|].
    intros k' Hk'. apply Hall. by right. }
  cbn [splice]. rewrite Hkids.
  specialize (Hk (Elem u nm a kids)). cbn [node_name] in Hk.
  by rewrite Hk by (by left).
Qed.

Lemma strip_background_idem style :
  strip_background (strip_background style) = strip_background style.
Proof.
  unfold strip_background at 2 3.
  set (kept := List.filter _ (List.filter _ _)).
  assert (Forall (Forall (fun d => d <> semicolon)) kept) as Hfree
    by (do 2 apply filter_Forall_keep; apply split_char_pieces).
  assert (Forall (fun s => nonempty (strip s) = true) kept) as Hnb
    by apply filter_Forall.
  assert (Forall (fun s => negb (is_background s) = true) kept) as Hbg
    by (apply filter_Forall_keep, filter_Forall).
  destruct kept as [|p l] eqn:E; [done|].
  unfold strip_background. change (lit ";") with [semicolon].
  rewrite split_char_join; [|done|exact Hfree].
  rewrite (filter_all (fun s => negb (is_background s))) by exact Hbg.
  by rewrite filter_all by exact Hnb.
Qed.

Lemma attr_set_set k v v' a :
  attr_set k v (attr_set k v' a) = attr_set k v a.
Proof.
  induction a as [|[k0 v0] a IH]; cbn [attr_set]; unfold str_eqb.
  - by rewrite bool_decide_eq_true_2.
  - case_bool_decide as E; cbn [attr_set]; unfold str_eqb.
    + by rewrite bool_decide_eq_true_2.
    + rewrite bool_decide_eq_false_2 by done. by rewrite IH.
Qed.

Lemma strip_background_attrs_idem a :
  strip_background_attrs (strip_background_attrs a)
  = strip_background_attrs a.
Proof.
  unfold strip_background_attrs.
  destruct (attr_get (lit "style") a) as [v|] eqn:E.
  - rewrite attr_get_set. cbn [attr_text].
    by rewrite strip_background_idem, attr_set_set.
  - by rewrite E.
Qed.

Lemma keep_href_idem a : keep_href (keep_href a) = keep_href a.
Proof.
  unfold keep_href.
  destruct (attr_get (lit "href") a) as [v|]; [|done].
  destruct (truthy v) eqn:Hv; [|done].
  cbn [attr_get]. unfold str_eqb.
  rewrite bool_decide_eq_true_2 by done. by rewrite Hv.
Qed.

Lemma convert_color_classes_fixed a :
  (forall cs, attr_get (lit "class") a = Some (AList cs) ->
     Forall (fun c => is_color_class c = false) cs) ->
  convert_color_classes_to_inline a = a.
Proof.
  intros H.
  destruct (attr_get (lit "class") a) as [[s|[|c cs]]|] eqn:E;
    try (rewrite convert_color_classes_no_class; [done|congruence]).
  rewrite (convert_color_classes_unfold a c cs E).
  specialize (H _ eq_refl).
  assert (Forall (fun x => negb (is_color_class x) = true) (c :: cs)) as H'.
  { eapply Forall_impl; [exact H|]. by intros x ->. }
  rewrite filter_all by done. rewrite omap_class_color_none by done.
  cbn [fold_left put_classes]. by apply attr_set_same.
Qed.

Lemma sanitize_tree_rec_idem cell :
  sanitize_tree_rec (sanitize_tree_rec cell) = sanitize_tree_rec cell.
Proof.
  set (f := sanitize_tree_rec cell).
  assert (forall n, n ∈ elems_of f ->
            allowed (node_name n) = true
            /\ exists nm a, node_name n = head_name nm
                 /\ node_attrs n = strip_background_attrs (head_attrs nm a))
    as Hf.
  { intros n Hn. split.
    - pose proof (sanitize_tree_rec_allowed cell) as Ha.
      rewrite Forall_forall in Ha. by apply Ha.
    - apply sanitize_tree_rec_origin in Hn as (u & nm & a & kids & _ & _ & ? & ?).
      by exists nm, a. }
  unfold sanitize_tree_rec at 1.
  rewrite (map_where_fixed (fun nm => str_eqb nm (lit "mark"))).
  2:{ intros n Hn Hsel. destruct (Hf n Hn) as [Ha _].
      unfold str_eqb in Hsel. apply bool_decide_eq_true_1 in Hsel.
      rewrite Hsel in Ha. by vm_compute in Ha. }
  rewrite (map_where_fixed (fun nm => str_eqb nm (lit "span"))).
  2:{ intros n Hn Hsel. f_equal.
      destruct (Hf n Hn) as [_ (nm & a & Hnm & Hat)].
      rewrite Hat. apply convert_color_classes_fixed. intros cs Hcs.
      rewrite strip_background_attrs_other in Hcs by done.
      unfold str_eqb in Hsel. apply bool_decide_eq_true_1 in Hsel.
      rewrite Hnm in Hsel. unfold head_name, head_attrs, str_eqb in *.
      case_bool_decide as Hmark; [by eapply convert_color_classes_clean|].
      subst nm. rewrite bool_decide_eq_true_2 in Hcs by done.
      by eapply convert_color_classes_clean. }
  rewrite (map_where_fixed (fun nm => str_eqb nm (lit "a"))).
  2:{ intros n Hn Hsel. f_equal.
      destruct (Hf n Hn) as [_ (nm & a & Hnm & Hat)].
      unfold str_eqb in Hsel. apply bool_decide_eq_true_1 in Hsel.
      rewrite Hnm in Hsel. rewrite Hat.
      unfold head_name, head_attrs, str_eqb in *.
      case_bool_decide as Hmark; [by vm_compute in Hsel|].
      subst nm. rewrite bool_decide_eq_false_2 by done.
      rewrite bool_decide_eq_true_2 by done.
      by rewrite strip_background_keep_href, keep_href_idem. }
  rewrite splice_fixed by (intros n Hn; by destruct (Hf n Hn)).
  apply map_where_fixed. intros n Hn _. f_equal.
  destruct (Hf n Hn) as [_ (nm & a & _ & ->)].
  apply strip_background_attrs_idem.
Qed.

(** Sanitizing is idempotent on the tree: the five loops, run on a cell
    that they have already rewritten, change nothing more.  So a second
    call of the sanitizer on the same cell returns the same markup as the
    first. *)
Theorem sanitize_tree_idempotent (cell : forest) :
  NoDup (uids cell) ->
  sanitize_tree (sanitize_tree cell) = sanitize_tree cell
  /\ (forall html_parser,
        sanitize_inline_html html_parser (sanitize_tree cell) false
        = sanitize_inline_html html_parser cell false).
Proof.
  intros Hwf.
  assert (sanitize_tree (sanitize_tree cell) = sanitize_tree cell) as H.
  { rewrite (sanitize_tree_structural (sanitize_tree cell)).
    - rewrite sanitize_tree_structural by done. apply sanitize_tree_rec_idem.
    - apply (sublist_NoDup _ (uids cell)); [done|].
      by apply sanitize_tree_uids_sublist. }
  split; [done|]. intros p. unfold sanitize_inline_html. by rewrite H.
Qed.

Lemma sanitize_tree_idempotent_witness :
  let cell := [Elem 1 (lit "h2") [(lit "style", AStr (lit "background-color:red"))]
                 [Elem 2 (lit "mark") [(lit "class", AList [lit "highlight-red"])]
                    [Text (lit "x")];
                  Elem 3 (lit "a") [(lit "href", AStr (lit "u")); (lit "id", AStr (lit "k"))]
                    [Text (lit "y")]]] in
  NoDup (uids cell)
  /\ sanitize_tree (sanitize_tree cell) = sanitize_tree cell.
Proof.
  intros cell. assert (NoDup (uids cell)) as H by distinct_uids.
  split; [exact H|]. exact (proj1 (sanitize_tree_idempotent cell H)).
Defined.
